(** * core-components: VirtualOptionsList and Popover

    A shallow embedding of the two React components

      - packages/select/src/components/virtual-options-list/Component.tsx
      - packages/popover/src/Component.tsx

    A function component is embedded as a pure function from the hook state
    left by the preceding render, the props and the values returned by the
    external hooks (react-virtual, react-popper) to the hook state after the
    commit, the imperative calls issued by the effects, and the rendered
    tree.  Indices that may be [-1] are in [Z]; positions in arrays are [nat]. *)

From Stdlib Require Import ZArith Lia.
From stdpp Require Import base option list gmap strings.

(** ** React primitives shared by the two components *)
Module React.

(** JavaScript truthiness of an optional boolean prop ([undefined] is falsy). *)
Definition truthy (b : option bool) : bool := default false b.

(** [useEffect(f, deps)] / [useMemo(f, deps)]: [f] runs on mount, when no
    dependency array has been recorded yet, and afterwards whenever the
    array differs from the one of the preceding render. *)
Definition depsChanged `{EqDecision D} (prev : option D) (cur : D) : bool :=
  match prev with
  | None => true
  | Some d => bool_decide (d ≠ cur)
  end.

(** [useMemo]: the cached value is handed back untouched while the
    dependencies are the same; the second component tells whether the
    factory ran. *)
Definition useMemo `{EqDecision D} {V} (cache : option (D * V)) (deps : D)
    (factory : unit → V) : V * bool :=
  match cache with
  | Some (d, v) => if bool_decide (d = deps) then (v, false) else (factory (), true)
  | None => (factory (), true)
  end.

(** Values a [ReactNode] prop can hold, as far as [&&] and the renderer
    tell them apart. *)
Inductive ReactNode :=
| RNull
| RBool (b : bool)
| RNum (n : Z)
| RText (s : string)
| RElement (id : nat).

Definition nodeTruthy (n : ReactNode) : bool :=
  match n with
  | RNull => false
  | RBool b => b
  | RNum n => negb (n =? 0)%Z
  | RText s => negb (bool_decide (s = ""%string))
  | RElement _ => true
  end.

End React.

(** ** VirtualOptionsList *)
Module VirtualOptionsList.
Import React.

(** *** Data *)

(** Modelled from the spec: the typings module is not part of the sources at
    hand.  An option is a leaf item with a key and an optional disabled flag;
    a group is a labelled, ordered sequence of options. *)
Record OptionShape := { key : string; disabled : option bool }.

Record GroupShape := { label : option string; groupOptions : list OptionShape }.

(** An entry of the [options] prop: [OptionShape | GroupShape]. *)
Inductive OptionsItem :=
| ItemOption (o : OptionShape)
| ItemGroup (g : GroupShape).

(** Modelled from the spec: [isGroup] of the utils module tells a group from
    a leaf option. *)
Definition isGroup (item : OptionsItem) : bool :=
  match item with
  | ItemGroup _ => true
  | ItemOption _ => false
  end.

(** Modelled from the spec: the flattened sequence is produced by the caller
    "by expanding Groups in place". *)
Definition flatten (opts : list OptionsItem) : list OptionShape :=
  flat_map (λ item, match item with
                    | ItemOption o => [o]
                    | ItemGroup g => groupOptions g
                    end) opts.

(** [Array.prototype.findIndex]: first index satisfying the predicate, [-1]
    when there is none. *)
Fixpoint findIndexFrom {A} (p : A → bool) (l : list A) (i : Z) : Z :=
  match l with
  | [] => (-1)%Z
  | x :: l' => if p x then i else findIndexFrom p l' (i + 1)%Z
  end.

Definition findIndex {A} (p : A → bool) (l : list A) : Z := findIndexFrom p l 0%Z.

(** Modelled from the spec: [lastIndexOf] of the utils module yields the
    index of the last element satisfying the predicate; as [findIndex] does,
    it answers [-1] when there is none. *)
Fixpoint lastIndexFrom {A} (p : A → bool) (l : list A) (i found : Z) : Z :=
  match l with
  | [] => found
  | x :: l' => lastIndexFrom p l' (i + 1)%Z (if p x then i else found)
  end.

Definition lastIndexOf {A} (l : list A) (p : A → bool) : Z :=
  lastIndexFrom p l 0%Z (-1)%Z.

(** Identity of the array held by [options]: either an array of the caller,
    or the literal [[]] the default parameter allocates anew at each render. *)
Inductive ArrayId :=
| CallerArray (id : nat)
| DefaultArray (render : nat).

#[global] Instance ArrayId_eq_dec : EqDecision ArrayId.
Proof. solve_decision. Defined.

Record VirtualOptionsListProps := {
  flatOptions : option (list OptionShape);
  highlightedIndex : option Z;
  open : option bool;
  options : option (nat * list OptionsItem);
  emptyPlaceholder : option ReactNode;
}.

(** What [useVirtual] hands back at a render; [scrollToIndex] is imperative
    and shows up as a [Call]. *)
Record VirtualItem := { index : nat; start : Z }.

Record Virtualizer := { virtualItems : list VirtualItem; totalSize : Z }.

Inductive Align := AlignEnd.

Inductive Call :=
| ScrollToIndex (i : Z) (align : option Align).

(** *** Hook state carried from one render to the next *)
Record Hooks := {
  renderCount : nat;
  previousRef : option Z;                    (* usePrevious(highlightedIndex) *)
  visibleOptionsInvalidateKey : Z;           (* useState(0) *)
  depsOpen : option (option bool);           (* [open] *)
  depsHighlighted : option Z;                (* [highlightedIndex] *)
  depsCyclic : option (Z * Z);               (* [prevHighlightedIndex, highlightedIndex] *)
  depsInvalidate : option (nat * nat);       (* [virtualItems.length, flatOptions.length] *)
  memoGroupStartIndexes : option (ArrayId * gmap nat nat);
  memoRuns : nat;                            (* ghost: runs of the useMemo factory *)
}.

Definition mount : Hooks :=
  {| renderCount := 0; previousRef := None; visibleOptionsInvalidateKey := 0%Z;
     depsOpen := None; depsHighlighted := None; depsCyclic := None;
     depsInvalidate := None; memoGroupStartIndexes := None; memoRuns := 0 |}.

(** *** The effects *)

(** Modelled from the spec: [usePrevious] of the utils module hands back the
    value its argument had at the preceding render ([previousRef], written
    at every commit) and [undefined] at the first render.

    [usePrevious(highlightedIndex) || -1]: [undefined] and [0] both give [-1]. *)
Definition prevHighlightedIndex (previous : option Z) : Z :=
  match previous with
  | Some p => if (p =? 0)%Z then (-1)%Z else p
  | None => (-1)%Z
  end.

(** Scroll to the selected item when the menu opens. *)
Definition openEffect (open : option bool) (highlightedIndex : Z) : list Call :=
  if truthy open then [ScrollToIndex highlightedIndex (Some AlignEnd)] else [].

(** Scroll to an item that is not on screen. *)
Definition highlightedEffect (v : Virtualizer) (highlightedIndex : Z) : list Call :=
  if (highlightedIndex =? -1)%Z then []
  else if negb (existsb (λ option, (Z.of_nat (index option) =? highlightedIndex)%Z)
                        (virtualItems v))
  then [ScrollToIndex highlightedIndex (Some AlignEnd)]
  else [].

Definition notDisabled (option : OptionShape) : bool := negb (truthy (disabled option)).

Definition firstNonDisabled (flatOptions : list OptionShape) : Z :=
  findIndex notDisabled flatOptions.

Definition lastNonDisabled (flatOptions : list OptionShape) : Z :=
  lastIndexOf flatOptions notDisabled.

(** Cyclic navigation. *)
Definition cyclicEffect (flatOptions : list OptionShape)
    (prevHighlightedIndex highlightedIndex : Z) : list Call :=
  (if (prevHighlightedIndex <=? firstNonDisabled flatOptions)%Z
      && (highlightedIndex =? Z.of_nat (length flatOptions) - 1)%Z
   then [ScrollToIndex (lastNonDisabled flatOptions) None] else [])
  ++
  (if (prevHighlightedIndex >=? lastNonDisabled flatOptions)%Z
      && (highlightedIndex =? 0)%Z
   then [ScrollToIndex 0%Z None] else []).

(** The argument of [setVisibleOptionsInvalidateKey]. *)
Definition invalidateKey (virtualItemsLength flatOptionsLength : nat) : Z :=
  if 1 <? virtualItemsLength then Z.of_nat flatOptionsLength else 1%Z.

(** *** The group-start index map *)

(** [Array.prototype.reduce] with the element index. *)
Fixpoint reduceFrom {A B} (f : B → A → nat → B) (l : list A) (i : nat) (acc : B) : B :=
  match l with
  | [] => acc
  | x :: l' => reduceFrom f l' (S i) (f acc x i)
  end.

(** The reducer; [currentIndex] is the variable of the enclosing closure. *)
Definition groupStartStep (st : nat * gmap nat nat) (option : OptionsItem)
    (index : nat) : nat * gmap nat nat :=
  let '(currentIndex, acc) := st in
  match option with
  | ItemGroup g => (currentIndex + length (groupOptions g), <[currentIndex := index]> acc)
  | ItemOption _ => (currentIndex + 1, acc)
  end.

Definition groupStartIndexes (options : list OptionsItem) : gmap nat nat :=
  snd (reduceFrom groupStartStep options 0 (0, ∅)).

(** *** The rendered tree *)

Inductive RowChild :=
| OptgroupElement (label : option string)           (* <Optgroup label=... /> *)
| OptionElement (option : OptionShape) (index : nat). (* Option({ option, index }) *)

Record Row := {
  rowKey : nat;
  rowHighlighted : bool;
  rowTranslateY : Z;
  rowChildren : list RowChild;
}.

(** Children of the outer [div].  A row is [None] when the virtual row points
    beyond [flatOptions]: what is rendered there is decided by [isGroup] on
    [undefined], which the sources at hand do not settle. *)
Inductive Child :=
| Inner (height : Z) (rows : list (option Row))
| EmptyPlaceholderElement (content : ReactNode)
| Value (v : option ReactNode).

(** [group.label], [group] being the entry cast to [GroupShape]. *)
Definition groupLabel (group : OptionsItem) : option string :=
  match group with
  | ItemGroup g => label g
  | ItemOption _ => None
  end.

Definition renderRow (flatOptions : list OptionShape) (options : list OptionsItem)
    (groupStartIndexes : gmap nat nat) (highlightedIndex : Z)
    (virtualRow : VirtualItem) : option Row :=
  option ← flatOptions !! index virtualRow;
  let group := groupStartIndexes !! index virtualRow ≫= (options !!.) in
  Some {| rowKey := index virtualRow;
          rowHighlighted := bool_decide (highlightedIndex = Z.of_nat (index virtualRow));
          rowTranslateY := start virtualRow;
          rowChildren :=
            match group with
            | Some group => [OptgroupElement (groupLabel group)]
            | None => []
            end
            ++ (if negb (isGroup (ItemOption option))
                then [OptionElement option (index virtualRow)] else []) |}.

(** [emptyPlaceholder && options.length === 0 && <div ...>], with the value
    [&&] leaves when an operand is falsy. *)
Definition placeholderSlot (emptyPlaceholder : option ReactNode)
    (options : list OptionsItem) : Child :=
  match emptyPlaceholder with
  | None => Value None
  | Some node =>
      if nodeTruthy node then
        if bool_decide (length options = 0) then EmptyPlaceholderElement node
        else Value (Some (RBool false))
      else Value (Some node)
  end.

(** *** One render and its commit *)

(** The effect a call comes from (ghost tag). *)
Inductive Rule :=
| OnOpen          (* useEffect(..., [open]) *)
| OnHighlighted   (* useEffect(..., [highlightedIndex]) *)
| OnCyclic.       (* useEffect(..., [prevHighlightedIndex, highlightedIndex]) *)

Record Rendered := {
  hooks : Hooks;
  calls : list (Rule * Call);
  children : list Child;
}.

(** Default parameters of the destructured props. *)
Definition flatOptionsOf (p : VirtualOptionsListProps) : list OptionShape :=
  default [] (flatOptions p).

Definition highlightedIndexOf (p : VirtualOptionsListProps) : Z :=
  default (-1)%Z (highlightedIndex p).

Definition optionsOf (h : Hooks) (p : VirtualOptionsListProps) : ArrayId * list OptionsItem :=
  match options p with
  | Some (id, l) => (CallerArray id, l)
  | None => (DefaultArray (renderCount h), [])
  end.

(** The three scrolling effects, each guarded by its dependency array. *)
Definition openCalls (h : Hooks) (p : VirtualOptionsListProps) : list Call :=
  if depsChanged (depsOpen h) (open p)
  then openEffect (open p) (highlightedIndexOf p) else [].

Definition highlightedCalls (h : Hooks) (p : VirtualOptionsListProps)
    (rowVirtualizer : Virtualizer) : list Call :=
  if depsChanged (depsHighlighted h) (highlightedIndexOf p)
  then highlightedEffect rowVirtualizer (highlightedIndexOf p) else [].

Definition cyclicCalls (h : Hooks) (p : VirtualOptionsListProps) : list Call :=
  let prevHighlightedIndex := prevHighlightedIndex (previousRef h) in
  if depsChanged (depsCyclic h) (prevHighlightedIndex, highlightedIndexOf p)
  then cyclicEffect (flatOptionsOf p) prevHighlightedIndex (highlightedIndexOf p) else [].

Definition VirtualOptionsList (h : Hooks) (p : VirtualOptionsListProps)
    (rowVirtualizer : Virtualizer) : Rendered :=
  let flatOptions := flatOptionsOf p in
  let highlightedIndex := highlightedIndexOf p in
  let '(optionsId, options) := optionsOf h p in
  let invalidateDeps := (length (virtualItems rowVirtualizer), length flatOptions) in
  let '(groupStartIndexes, ran) :=
    useMemo (memoGroupStartIndexes h) optionsId (λ _, groupStartIndexes options) in
  {| hooks :=
       {| renderCount := S (renderCount h);
          previousRef := Some highlightedIndex;
          visibleOptionsInvalidateKey :=
            if depsChanged (depsInvalidate h) invalidateDeps
            then invalidateKey invalidateDeps.1 invalidateDeps.2
            else visibleOptionsInvalidateKey h;
          depsOpen := Some (open p);
          depsHighlighted := Some highlightedIndex;
          depsCyclic := Some (prevHighlightedIndex (previousRef h), highlightedIndex);
          depsInvalidate := Some invalidateDeps;
          memoGroupStartIndexes := Some (optionsId, groupStartIndexes);
          memoRuns := if ran then S (memoRuns h) else memoRuns h |};
     calls :=
       (pair OnOpen <$> openCalls h p)
       ++ (pair OnHighlighted <$> highlightedCalls h p rowVirtualizer)
       ++ (pair OnCyclic <$> cyclicCalls h p);
     children :=
       [ Inner (totalSize rowVirtualizer)
               (renderRow flatOptions options groupStartIndexes highlightedIndex
                  <$> virtualItems rowVirtualizer);
         placeholderSlot (emptyPlaceholder p) options ] |}.

(** The hook state after a sequence of renders of one mounted instance. *)
Definition after (history : list (VirtualOptionsListProps * Virtualizer)) : Hooks :=
  fold_left (λ h pv, hooks (VirtualOptionsList h pv.1 pv.2)) history mount.

(** The calls of a commit, effect by effect. *)
Definition callsOf (r : Rule) (h : Hooks) (p : VirtualOptionsListProps)
    (v : Virtualizer) : list Call :=
  match r with
  | OnOpen => openCalls h p
  | OnHighlighted => highlightedCalls h p v
  | OnCyclic => cyclicCalls h p
  end.

(** *** Statements the properties below refer to *)

(** After a commit the key is the value computed from the dependencies the
    effect last ran with. *)
Definition keyUpToDate (h : Hooks) : Prop :=
  ∀ rows total, depsInvalidate h = Some (rows, total) →
    visibleOptionsInvalidateKey h = invalidateKey rows total.




(** "Every key of the group-start map is a flat index at the first member of
    some group": there is a group with a first member, and the key is the
    number of flat options before that group (as in the instance
    [[Z, {G: [X, Y]}]], where the key 1 is the flat index of X). *)
Definition keysAreFirstMembers : Prop :=
  ∀ (options : list OptionsItem) (k : nat),
    is_Some (groupStartIndexes options !! k) →
    ∃ (j : nat) g o,
      options !! j = Some (ItemGroup g) ∧ head (groupOptions g) = Some o
      ∧ k = length (flatten (take j options)).

(** *** Sample data *)
Definition optA : OptionShape := {| key := "A"; disabled := None |}.
Definition optB : OptionShape := {| key := "B"; disabled := None |}.
Definition optC : OptionShape := {| key := "C"; disabled := None |}.
Definition optD : OptionShape := {| key := "D"; disabled := Some true |}.
Definition optX : OptionShape := {| key := "X"; disabled := None |}.
Definition optY : OptionShape := {| key := "Y"; disabled := None |}.
Definition optZ : OptionShape := {| key := "Z"; disabled := None |}.
Definition groupG : GroupShape := {| label := Some "G"%string; groupOptions := [optX; optY] |}.

Definition sampleOf (id : nat) (opts : list OptionsItem) (hi : Z) (isOpen : bool)
    : VirtualOptionsListProps :=
  {| flatOptions := Some (flatten opts); highlightedIndex := Some hi;
     open := Some isOpen; options := Some (id, opts); emptyPlaceholder := None |}.

Definition sampleProps (hi : Z) (isOpen : bool) : VirtualOptionsListProps :=
  sampleOf 0 [ItemOption optA; ItemOption optB; ItemOption optC] hi isOpen.

(** D, A, B, D: the first and the last option are disabled. *)
Definition guardedProps (hi : Z) : VirtualOptionsListProps :=
  sampleOf 2 [ItemOption optD; ItemOption optA; ItemOption optB; ItemOption optD] hi true.


Definition emptyGroup : GroupShape := {| label := Some "E"%string; groupOptions := [] |}.

Definition rowsUpTo (n : nat) : Virtualizer :=
  {| virtualItems := (λ i, {| index := i; start := Z.of_nat i * 40 |}) <$> seq 0 n;
     totalSize := 120 |}.

(** *** Arrays that are never changed in place *)

(** The contents an array identity stands for, when the caller's arrays are
    given by [store] and never mutated; the default parameter's array is
    empty. *)
Definition arrayContents (store : nat → list OptionsItem) (id : ArrayId)
    : list OptionsItem :=
  match id with
  | CallerArray n => store n
  | DefaultArray _ => []
  end.

(** Every render of the sequence passes, under an identity, the contents
    [store] has for it. *)
Definition immutableOptions (store : nat → list OptionsItem)
    (history : list (VirtualOptionsListProps * Virtualizer)) : Prop :=
  ∀ q w id l, (q, w) ∈ history → options q = Some (id, l) → l = store id.

(** The memoised map is the group-start map of the contents its identity
    stands for. *)
Definition memoInSync (store : nat → list OptionsItem) (h : Hooks) : Prop :=
  ∀ id m, memoGroupStartIndexes h = Some (id, m) →
    m = groupStartIndexes (arrayContents store id).

(** The flat position at which entry [j] of [options] starts. *)
Definition flatPosition (options : list OptionsItem) (j : nat) : nat :=
  length (flatten (take j options)).

End VirtualOptionsList.


(** ** Popover *)
Module Popover.
Import React.

(** *** Data *)

(** An [HTMLElement], known by its identity; [RefElement] is
    [HTMLElement | null]. *)
Record Element := { elementId : nat }.

#[global] Instance Element_eq_dec : EqDecision Element.
Proof. solve_decision. Defined.

Definition RefElement := option Element.

(** [Position = BasePlacement | VariationPlacement]: a side, alone or with
    [-start] / [-end]. *)
Inductive BasePlacement := Top | Bottom | Right | Left.

Inductive Variation := Start | End_.

Record Position := { side : BasePlacement; variation : option Variation }.

Inductive Options :=
| OffsetOptions (offset : Z * Z)                   (* { offset } *)
| ArrowOptions (element : RefElement)              (* { element: arrowElement } *)
| FlipOptions (fallbackPlacements : list Position) (* { fallbackPlacements } *)
| PreventOverflowOptions (mainAxis : bool).        (* { mainAxis: false } *)

Record PopperModifier := { name : string; options : Options }.

(** The props the hooks and the panel style read.  [update] is the identity
    of the caller's [MutableRefObject]; [children] the identity of the
    content. *)
Record PopoverProps := {
  open : bool;
  anchorElement : RefElement;
  useAnchorWidth : option bool;
  position : option Position;
  preventFlip : option bool;
  preventOverflow : option bool;
  withArrow : option bool;
  offset : option (Z * Z);
  withTransition : option bool;
  update : option nat;
  fallbackPlacements : option (list Position);
  children : option nat;
}.

Inductive StyleValue :=
| Number (n : Z)
| Text (s : string).

(** What the surroundings provide at a render: the result of [usePopper],
    the elements attached through the ref callbacks, the z-index handed down
    by [Stack], and the layout widths of the document. *)
Record Env := {
  popperStyles : gmap string StyleValue;   (* popperStyles.popper *)
  updatePopper : option nat;               (* identity of the function, or null *)
  popperElement : RefElement;
  arrowElement : RefElement;
  computedZIndex : Z;
  offsetWidth : Element → Z;
}.

(** [updatePopoverWidth]: the variables the callback closes over. *)
Record Callback := { cbUseAnchorWidth : option bool; cbUpdate : option nat }.

#[global] Instance Callback_eq_dec : EqDecision Callback.
Proof. solve_decision. Defined.

(** A [ResizeObserver] with its callback and the elements it watches. *)
Record Observer := { callback : Callback; observed : list Element }.

Inductive Event :=
| SetReferenceElement (e : RefElement)
| Invoke (fn : nat)                       (* a call of the function [fn] *)
| Assign (ref fn : nat)                   (* update.current = updatePopper *)
| NewObserver (cb : Callback)
| Observe (e : Element)
| Disconnect (o : Observer).

(** Hook state left by a commit: the state cell, the dependency arrays the
    effects last ran with, and the live observer. *)
Record Hooks := {
  referenceElement : RefElement;                     (* useState(anchorElement) *)
  depsReference : RefElement;                        (* [anchorElement] *)
  depsRecompute : option nat * RefElement * option nat;
                                       (* [updatePopper, arrowElement, children] *)
  depsObserver : RefElement * option nat * Callback;
                                       (* [anchorElement, update, updatePopoverWidth] *)
  observer : Observer;
}.

(** *** The modifier list *)
Definition getModifiers (p : PopoverProps) (arrowElement : RefElement) : list PopperModifier :=
  let modifiers :=
    [{| name := "offset"; options := OffsetOptions (default (0, 0)%Z (offset p)) |}] in
  let modifiers :=
    if default false (withArrow p)
    then modifiers ++ [{| name := "arrow"; options := ArrowOptions arrowElement |}]
    else modifiers in
  let modifiers :=
    if truthy (preventFlip p)
    then modifiers ++ [{| name := "flip"; options := FlipOptions [] |}]
    else modifiers in
  let modifiers :=
    match fallbackPlacements p with
    | Some fallbackPlacements =>
        modifiers ++ [{| name := "flip"; options := FlipOptions fallbackPlacements |}]
    | None => modifiers
    end in
  let modifiers :=
    if default true (preventOverflow p)
    then modifiers ++ [{| name := "preventOverflow";
                          options := PreventOverflowOptions false |}]
    else modifiers in
  modifiers.

(** *** Effects *)

(** [updatePopoverWidth], run against the contents of the caller's refs
    ([refs !! r] is [update.current] of the ref [r]; unset when absent). *)
Definition updatePopoverWidth (cb : Callback) (refs : gmap nat nat) : list Event :=
  if truthy (cbUseAnchorWidth cb) then
    match cbUpdate cb with
    | Some r => match refs !! r with
                | Some fn => [Invoke fn]
                | None => []
                end
    | None => []
    end
  else [].

(** The effect without dependency array: store the recompute function in
    the caller's ref. *)
Definition storeUpdate (update updatePopper : option nat) (refs : gmap nat nat)
    : gmap nat nat * list Event :=
  match update, updatePopper with
  | Some r, Some fn =>
      match refs !! r with
      | None => (<[r := fn]> refs, [Assign r fn])
      | Some _ => (refs, [])
      end
  | _, _ => (refs, [])
  end.

Definition observeAnchor (cb : Callback) (anchorElement : RefElement)
    : Observer * list Event :=
  match anchorElement with
  | Some e => ({| callback := cb; observed := [e] |}, [NewObserver cb; Observe e])
  | None => ({| callback := cb; observed := [] |}, [NewObserver cb])
  end.

(** The observer effect: on mount a new observer; afterwards, when a
    dependency differs, the cleanup disconnects the live observer before a
    new one is made. *)
Definition observerEffect (mounted : option Hooks)
    (deps : RefElement * option nat * Callback) : Observer * list Event :=
  let observing := observeAnchor deps.2 deps.1.1 in
  match mounted with
  | None => observing
  | Some h =>
      if depsChanged (Some (depsObserver h)) deps
      then (observing.1, Disconnect (observer h) :: observing.2)
      else (observer h, [])
  end.

(** *** The rendered panel *)
Record Content := {
  style : gmap string StyleValue;
  hasArrow : bool;
}.

Inductive PortalChild :=
| CSSTransition (in_ : bool) (content : Content)
| Bare (content : option Content).

(** [{ zIndex, width: useAnchorWidth ? referenceElement?.offsetWidth : undefined,
      ...popperStyles.popper }] *)
Definition panelStyle (p : PopoverProps) (referenceElement : RefElement) (env : Env)
    : gmap string StyleValue :=
  let width :=
    if truthy (useAnchorWidth p)
    then (λ e, Number (offsetWidth env e)) <$> referenceElement
    else None in
  popperStyles env ∪
    (match width with
     | Some w => <["width"%string := w]>
     | None => id
     end) {[ "zIndex"%string := Number (computedZIndex env) ]}.

Definition renderContent (p : PopoverProps) (referenceElement : RefElement) (env : Env)
    : Content :=
  {| style := panelStyle p referenceElement env;
     hasArrow := default false (withArrow p) |}.

(** The panel a portal child holds, if any. *)
Definition contentOf (v : PortalChild) : option Content :=
  match v with
  | CSSTransition _ content => Some content
  | Bare content => content
  end.

(** *** One render and its commit *)
Record Rendered := {
  hooks : Hooks;
  refs : gmap nat nat;
  modifiers : list PopperModifier;     (* handed to usePopper *)
  events : list Event;
  view : PortalChild;
}.

Definition Popover (mounted : option Hooks) (refs : gmap nat nat) (p : PopoverProps)
    (env : Env) : Rendered :=
  let referenceElement :=
    match mounted with
    | Some h => referenceElement h
    | None => anchorElement p
    end in
  let updatePopoverWidth :=
    {| cbUseAnchorWidth := useAnchorWidth p; cbUpdate := update p |} in
  let recomputeDeps := (updatePopper env, arrowElement env, children p) in
  let observerDeps := (anchorElement p, update p, updatePopoverWidth) in
  let referenceChanged := depsChanged (depsReference <$> mounted) (anchorElement p) in
  let stored := storeUpdate (update p) (updatePopper env) refs in
  let observing := observerEffect mounted observerDeps in
  {| hooks :=
       {| referenceElement :=
            if referenceChanged then anchorElement p else referenceElement;
          depsReference := anchorElement p;
          depsRecompute := recomputeDeps;
          depsObserver := observerDeps;
          observer := observing.1 |};
     refs := stored.1;
     modifiers := getModifiers p (arrowElement env);
     events :=
       (if referenceChanged then [SetReferenceElement (anchorElement p)] else [])
       ++ (if depsChanged (depsRecompute <$> mounted) recomputeDeps
           then match updatePopper env with
                | Some fn => [Invoke fn]
                | None => []
                end
           else [])
       ++ stored.2
       ++ observing.2;
     view :=
       if default true (withTransition p)
       then CSSTransition (open p) (renderContent p referenceElement env)
       else Bare (if open p then Some (renderContent p referenceElement env)
                  else None) |}.

(** The observer reports a size change of [target]. *)
Definition resize (h : Hooks) (refs : gmap nat nat) (target : Element) : list Event :=
  if bool_decide (target ∈ observed (observer h))
  then updatePopoverWidth (callback (observer h)) refs else [].

(** Unmounting runs the cleanup of the observer effect. *)
Definition unmount (h : Hooks) : list Event := [Disconnect (observer h)].

(** Hook state and ref contents after a sequence of renders of one
    instance; [None] before the first. *)
Definition step (st : option Hooks * gmap nat nat) (pe : PopoverProps * Env)
    : option Hooks * gmap nat nat :=
  let r := Popover st.1 st.2 pe.1 pe.2 in (Some (hooks r), refs r).

Definition after (refs0 : gmap nat nat) (history : list (PopoverProps * Env))
    : option Hooks * gmap nat nat :=
  fold_left step history (None, refs0).

(** *** Statements the properties below refer to *)

Definition named (n : string) (ms : list PopperModifier) : list PopperModifier :=
  filter (λ m, name m = n) ms.

(** What a commit establishes: the live observer is the one made for the
    recorded dependencies, and the state cell holds the recorded anchor. *)
Definition consistent (h : Hooks) : Prop :=
  observer h = (observeAnchor (depsObserver h).2 (depsObserver h).1.1).1
  ∧ referenceElement h = depsReference h.

(** "Either one flip modifier or the other, not both." *)
Definition atMostOneFlip : Prop :=
  ∀ p arrowElement, length (named "flip" (getModifiers p arrowElement)) ≤ 1.

(** "On any observed size change of the anchor, if [useAnchorWidth] is
    enabled, the recompute handle is invoked." *)
Definition resizeAlwaysRecomputes : Prop :=
  ∀ refs0 history p env e,
    anchorElement p = Some e → truthy (useAnchorWidth p) = true →
    let r := Popover (after refs0 history).1 (after refs0 history).2 p env in
    ∃ fn, Invoke fn ∈ resize (hooks r) (refs r) e.

(** *** Sample data *)
Definition anchorA : Element := {| elementId := 1 |}.
Definition anchorB : Element := {| elementId := 2 |}.

Definition sampleProps (anchor : RefElement) (useWidth : bool) (ref : option nat)
    : PopoverProps :=
  {| open := true; anchorElement := anchor; useAnchorWidth := Some useWidth;
     position := None; preventFlip := None; preventOverflow := None;
     withArrow := None; offset := None; withTransition := None;
     update := ref; fallbackPlacements := None; children := Some 0 |}.

Definition flipProps : PopoverProps :=
  {| open := true; anchorElement := Some anchorA; useAnchorWidth := None;
     position := None; preventFlip := Some true; preventOverflow := None;
     withArrow := None; offset := None; withTransition := None;
     update := None;
     fallbackPlacements := Some [{| side := Top; variation := None |}];
     children := Some 0 |}.

Definition sampleEnv (fn : option nat) (width : Z) : Env :=
  {| popperStyles := {[ "position"%string := Text "absolute" ]};
     updatePopper := fn; popperElement := None; arrowElement := None;
     computedZIndex := 50; offsetWidth := λ _, width |}.

(** *** The events of a whole life *)

(** The events of a sequence of renders, in order, from the state [st]. *)
Fixpoint run (st : option Hooks * gmap nat nat) (history : list (PopoverProps * Env))
    : list Event :=
  match history with
  | [] => []
  | pe :: history' => events (Popover st.1 st.2 pe.1 pe.2) ++ run (step st pe) history'
  end.

Definition isNewObserver (ev : Event) : bool :=
  match ev with
  | NewObserver _ => true
  | _ => false
  end.

Definition isDisconnect (ev : Event) : bool :=
  match ev with
  | Disconnect _ => true
  | _ => false
  end.

Definition count (f : Event → bool) (evs : list Event) : nat :=
  length (List.filter f evs).

(** The observers the events disconnect, in order. *)
Definition disconnectedObservers (evs : list Event) : list Observer :=
  omap (λ ev, match ev with
              | Disconnect o => Some o
              | _ => None
              end) evs.

(** The observers a sequence of renders makes, in order: at every commit
    whose events hold a [new ResizeObserver], the observer that is live
    after that commit. *)
Fixpoint madeObservers (st : option Hooks * gmap nat nat)
    (history : list (PopoverProps * Env)) : list Observer :=
  match history with
  | [] => []
  | pe :: history' =>
      let r := Popover st.1 st.2 pe.1 pe.2 in
      (if existsb isNewObserver (events r) then [observer (hooks r)] else [])
      ++ madeObservers (step st pe) history'
  end.

End Popover.

(** ** Storybook theme switcher (.storybook/addons/theme-switcher/utils.js) *)
Module ThemeSwitcher.
Import Stdlib.Strings.Ascii.

(** What the module imports: the style sheets loaded through postcss and
    the id of the mode-colours tag.  Their contents are not part of the
    sources at hand, so they are parameters. *)
Record Imports := {
  click : string;
  mobile : string;
  corp : string;
  site : string;
  bluetintColors : string;
  MODE_COLORS_TAG_ID : string;
}.

(** [themes]: the object literal [{ default: '', click, mobile, corp, site }]. *)
Definition themes (i : Imports) : gmap string string :=
  <["default"%string := ""%string]>
    (<["click"%string := click i]>
       (<["mobile"%string := mobile i]>
          (<["corp"%string := corp i]>
             (<["site"%string := site i]> ∅)))).

Definition THEME_DATA_ATTR : string := "theme".

(** Names every object literal inherits from [Object.prototype]; [themes[name]]
    is then a function (or the prototype itself), not [undefined]. *)
Definition objectPrototypeKeys : list string :=
  ["constructor"; "hasOwnProperty"; "isPrototypeOf"; "propertyIsEnumerable";
   "toLocaleString"; "toString"; "valueOf"; "__proto__"; "__defineGetter__";
   "__defineSetter__"; "__lookupGetter__"; "__lookupSetter__"]%string.

(** The separator handed to [join]: a line feed. *)
Definition lineFeed : string := String "010"%char EmptyString.

(** [themes[theme]] and [theme === 'mobile' ? bluetintColors : ''], joined
    with a line feed.  [join] writes [undefined] as the empty string.  The
    answer is [None] for a name inherited from [Object.prototype]: the text
    [join] gives a function is the engine's. *)
Definition getThemeStyles (i : Imports) (theme : string) : option string :=
  let second := if bool_decide (theme = "mobile"%string) then bluetintColors i else ""%string in
  match themes i !! theme with
  | Some css => Some (css +:+ lineFeed +:+ second)
  | None =>
      if bool_decide (theme ∈ objectPrototypeKeys) then None
      else Some ("" +:+ lineFeed +:+ second)
  end.

(** The assignment [getOrCreateStyleTag(id, beforeId, doc).innerHTML = html];
    the helper is external. *)
Inductive Write :=
| SetInnerHTML (id beforeId html : string).

(** What a call does: nothing, a write to the style tag, or a write whose
    text is the engine's rendering of an inherited property. *)
Inductive Outcome :=
| NoMatch
| Styled (w : Write)
| EngineText (theme : string).

Definition setStyles (i : Imports) (theme : string) : Outcome :=
  match getThemeStyles i theme with
  | Some html => Styled (SetInnerHTML "theme" (MODE_COLORS_TAG_ID i) html)
  | None => EngineText theme
  end.

(** [s] with the prefix [p] taken off, when it starts with [p]. *)
Fixpoint stripPrefix (p s : string) : option string :=
  match p, s with
  | EmptyString, _ => Some s
  | String a p', String b s' => if Ascii.eqb a b then stripPrefix p' s' else None
  | String _ _, EmptyString => None
  end.

(** The capture group of the regular expression, a starred class of the
    characters other than [&]: the longest run of such characters. *)
Fixpoint notAmpersands (s : string) : string :=
  match s with
  | EmptyString => EmptyString
  | String c s' => if Ascii.eqb c "&" then EmptyString else String c (notAmpersands s')
  end.

(** [exec] of the regular expression (the text [&theme=] followed by the
    capture group) on [search]: the capture group of the leftmost match,
    [None] for [null]. *)
Fixpoint themeRegExpExec (search : string) : option string :=
  match stripPrefix "&theme=" search with
  | Some rest => Some (notAmpersands rest)
  | None =>
      match search with
      | EmptyString => None
      | String _ search' => themeRegExpExec search'
      end
  end.

(** [search] is [document.location.search]. *)
Definition setThemeStylesInIframeHtmlPage (i : Imports) (search : string) : Outcome :=
  match themeRegExpExec search with
  | Some theme => setStyles i theme
  | None => NoMatch
  end.

(** No [&] in the string. *)
Fixpoint ampersandFree (s : string) : Prop :=
  match s with
  | EmptyString => True
  | String c s' => c ≠ "&"%char ∧ ampersandFree s'
  end.

(** *** Sample data *)
Definition sheets : Imports :=
  {| click := ".click{}"; mobile := ".mobile{}"; corp := ".corp{}"; site := ".site{}";
     bluetintColors := ":root{--blue:0}"; MODE_COLORS_TAG_ID := "mode-colors" |}.

End ThemeSwitcher.

(** * Properties *)

(** ** Dependency arrays *)
Module ReactFacts.
Import React.

Lemma depsChanged_same `{EqDecision D} (d : D) : depsChanged (Some d) d = false.
Proof. unfold depsChanged. rewrite bool_decide_eq_false. tauto. Qed.

Lemma depsChanged_diff `{EqDecision D} (d d' : D) :
  d ≠ d' → depsChanged (Some d) d' = true.
Proof. intros. unfold depsChanged. by rewrite bool_decide_eq_true. Qed.

Lemma depsChanged_false `{EqDecision D} (prev : option D) (d : D) :
  depsChanged prev d = false → prev = Some d.
Proof.
  destruct prev as [d0|]; simpl; [|done].
  rewrite bool_decide_eq_false. intros Hnn.
  destruct (decide (d0 = d)); [by subst | tauto].
Qed.

End ReactFacts.

(** ** VirtualOptionsList *)
Module VirtualOptionsListFacts.
Import React ReactFacts VirtualOptionsList.

Local Open Scope Z_scope.

(** *** What one commit leaves in the hook state *)

Lemma after_snoc history p v :
  after (history ++ [(p, v)]) = hooks (VirtualOptionsList (after history) p v).
Proof. unfold after. by rewrite fold_left_app. Qed.

Ltac unfold_render :=
  unfold VirtualOptionsList;
  repeat match goal with
         | |- context [optionsOf ?h ?p] => destruct (optionsOf h p)
         | |- context [useMemo ?c ?d ?f] => destruct (useMemo c d f)
         end; simpl.

Lemma depsOpen_commit h p v : depsOpen (hooks (VirtualOptionsList h p v)) = Some (open p).
Proof. by unfold_render. Qed.

Lemma depsHighlighted_commit h p v :
  depsHighlighted (hooks (VirtualOptionsList h p v)) = Some (highlightedIndexOf p).
Proof. by unfold_render. Qed.

Lemma depsCyclic_commit h p v :
  depsCyclic (hooks (VirtualOptionsList h p v))
  = Some (prevHighlightedIndex (previousRef h), highlightedIndexOf p).
Proof. by unfold_render. Qed.

Lemma previousRef_commit h p v :
  previousRef (hooks (VirtualOptionsList h p v)) = Some (highlightedIndexOf p).
Proof. by unfold_render. Qed.

Lemma elem_of_calls h p v r c :
  (r, c) ∈ calls (VirtualOptionsList h p v) ↔ c ∈ callsOf r h p v.
Proof.
  unfold_render. rewrite !elem_of_app, !list_elem_of_fmap.
  split.
  - intros [(c' & [= -> ->] & ?)|[(c' & [= -> ->] & ?)|(c' & [= -> ->] & ?)]]; done.
  - destruct r; simpl; eauto 6.
Qed.

(** *** The effect on [open] *)

Lemma openCalls_transition h p :
  (∃ o, depsOpen h = Some o ∧ truthy o = false) → truthy (open p) = true →
  openCalls h p = [ScrollToIndex (highlightedIndexOf p) (Some AlignEnd)].
Proof.
  intros (o & Ho & Hclosed) Hopen. unfold openCalls, openEffect.
  rewrite Ho, depsChanged_diff, Hopen; [done | congruence].
Qed.

(** *** The effect on [highlightedIndex] *)

Lemma highlightedEffect_visible v hi :
  (∃ row, row ∈ virtualItems v ∧ Z.of_nat (index row) = hi) →
  highlightedEffect v hi = [].
Proof.
  intros (row & Hin & Hrow). unfold highlightedEffect.
  destruct (hi =? -1); [done|].
  assert (existsb (λ option, Z.of_nat (index option) =? hi) (virtualItems v) = true) as ->; [|done].
  apply existsb_exists. exists row. rewrite <- list_elem_of_In. split; [done | lia].
Qed.

Lemma highlightedEffect_hidden v hi :
  hi ≠ -1 →
  (∀ row, row ∈ virtualItems v → Z.of_nat (index row) ≠ hi) →
  highlightedEffect v hi = [ScrollToIndex hi (Some AlignEnd)].
Proof.
  intros Hhi Hrows. unfold highlightedEffect.
  destruct (Z.eqb_spec hi (-1)); [done|].
  destruct (existsb _ _) eqn:Hex; [|done].
  apply existsb_exists in Hex as (row & Hin & Hrow).
  apply list_elem_of_In, Hrows in Hin. lia.
Qed.

Lemma highlightedEffect_none v : highlightedEffect v (-1) = [].
Proof. done. Qed.

(** *** The boundaries of cyclic navigation *)

Lemma findIndexFrom_spec {A} (p : A → bool) (l : list A) (i : Z) :
  (findIndexFrom p l i = -1 ∧ ∀ x, x ∈ l → p x = false)
  ∨ ∃ (n : nat) x, findIndexFrom p l i = i + Z.of_nat n ∧ l !! n = Some x ∧ p x = true
                   ∧ ∀ (m : nat) y, (m < n)%nat → l !! m = Some y → p y = false.
Proof.
  revert i. induction l as [|x l IH]; intros i; simpl.
  - left. split; [done|]. intros x Hx. by apply not_elem_of_nil in Hx.
  - destruct (p x) eqn:Hpx.
    + right. exists 0%nat, x. repeat split; [lia | done | intros; lia].
    + destruct (IH (i + 1)) as [[-> Hall]|(n & y & -> & Hn & Hy & Hbefore)].
      * left. split; [done|]. intros z [->|Hz]%elem_of_cons; auto.
      * right. exists (S n), y. repeat split; [lia | done | done |].
        intros [|m] z Hm Hz; simpl in Hz; [congruence|]. apply (Hbefore m); [lia | done].
Qed.

Lemma lastIndexFrom_spec {A} (p : A → bool) (l : list A) (i found : Z) :
  (lastIndexFrom p l i found = found ∧ ∀ x, x ∈ l → p x = false)
  ∨ ∃ (n : nat) x, lastIndexFrom p l i found = i + Z.of_nat n ∧ l !! n = Some x
                   ∧ p x = true
                   ∧ ∀ (m : nat) y, (n < m)%nat → l !! m = Some y → p y = false.
Proof.
  revert i found. induction l as [|x l IH]; intros i found; simpl.
  - left. split; [done|]. intros x Hx. by apply not_elem_of_nil in Hx.
  - destruct (IH (i + 1) (if p x then i else found))
      as [[-> Hall]|(n & y & -> & Hn & Hy & Hafter)].
    + destruct (p x) eqn:Hpx.
      * right. exists 0%nat, x. repeat split; [lia | done |].
        intros [|m] z Hm Hz; [lia|]. simpl in Hz.
        apply Hall, list_elem_of_lookup. eauto.
      * left. split; [done|]. intros z [->|Hz]%elem_of_cons; auto.
    + right. exists (S n), y. repeat split; [lia | done | done |].
      intros [|m] z Hm Hz; [lia|]. simpl in Hz. apply (Hafter m); [lia | done].
Qed.

(** Disabled options keep their flat index: the two boundaries are indices
    into the whole of [flatOptions], of options that are not disabled, and
    every option that is not disabled lies between them. *)
Lemma boundaries_spec (flat : list OptionShape) :
  (∀ (n : nat) o, flat !! n = Some o → notDisabled o = true →
     0 ≤ firstNonDisabled flat ≤ Z.of_nat n
     ∧ Z.of_nat n ≤ lastNonDisabled flat < Z.of_nat (length flat))
  ∧ (firstNonDisabled flat ≠ -1 →
     ∃ (n : nat) o, firstNonDisabled flat = Z.of_nat n ∧ flat !! n = Some o
                    ∧ notDisabled o = true)
  ∧ (lastNonDisabled flat ≠ -1 →
     ∃ (n : nat) o, lastNonDisabled flat = Z.of_nat n ∧ flat !! n = Some o
                    ∧ notDisabled o = true)
  ∧ ((∀ o, o ∈ flat → notDisabled o = false) →
     firstNonDisabled flat = -1 ∧ lastNonDisabled flat = -1).
Proof.
  unfold firstNonDisabled, lastNonDisabled, findIndex, lastIndexOf.
  destruct (findIndexFrom_spec notDisabled flat 0)
    as [[-> Hnone]|(nf & xf & -> & Hf & Hxf & Hbefore)];
  destruct (lastIndexFrom_spec notDisabled flat 0 (-1))
    as [[-> Hnone']|(nl & xl & -> & Hl & Hxl & Hafter)].
  - split; [|done].
    intros n o Hn Ho. rewrite Hnone in Ho; [done|]. apply list_elem_of_lookup; eauto.
  - rewrite Hnone in Hxl; [done|]. apply list_elem_of_lookup; eauto.
  - rewrite Hnone' in Hxf; [done|]. apply list_elem_of_lookup; eauto.
  - split; [|split; [|split]].
    + intros n o Hn Ho. pose proof (lookup_lt_Some _ _ _ Hl).
      assert (¬ (n < nf)%nat) by (intros ?; rewrite (Hbefore n o) in Ho; done).
      assert (¬ (nl < n)%nat) by (intros ?; rewrite (Hafter n o) in Ho; done).
      lia.
    + intros _. exists nf, xf. split; [lia | done].
    + intros _. exists nl, xl. split; [lia | done].
    + intros Hall. rewrite Hall in Hxf; [done|]. apply list_elem_of_lookup; eauto.
Qed.

Lemma prevHighlightedIndex_le prev : prevHighlightedIndex (Some prev) ≤ prev.
Proof. simpl. destruct (Z.eqb_spec prev 0); lia. Qed.

Lemma prevHighlightedIndex_nonzero prev :
  prev ≠ 0 → prevHighlightedIndex (Some prev) = prev.
Proof. simpl. destruct (Z.eqb_spec prev 0); done. Qed.

Lemma cyclicCalls_changed history p0 v0 p1 :
  highlightedIndexOf p0 ≠ highlightedIndexOf p1 →
  cyclicCalls (after (history ++ [(p0, v0)])) p1
  = cyclicEffect (flatOptionsOf p1) (prevHighlightedIndex (Some (highlightedIndexOf p0)))
      (highlightedIndexOf p1).
Proof.
  intros Hchanged. unfold cyclicCalls.
  rewrite after_snoc, depsCyclic_commit, previousRef_commit.
  rewrite depsChanged_diff; [done | congruence].
Qed.

(** C1.  Cyclic wrap-around.  For a change of the highlighted index from
    one render to the next: if the previous index was at or before the first
    non-disabled option and the new index is [flatOptions.length - 1], the
    list is scrolled to the last non-disabled option; if the previous index
    was at or after the last non-disabled option and the new index is [0],
    the list is scrolled to [0].  The two boundaries are flat indices:
    disabled options are skipped when looking for them but keep their
    place. *)
Theorem cyclic_wrap_around history p0 v0 p1 v1 :
  let flat := flatOptionsOf p1 in
  let prev := highlightedIndexOf p0 in
  let hi := highlightedIndexOf p1 in
  let r := VirtualOptionsList (after (history ++ [(p0, v0)])) p1 v1 in
  prev ≠ hi →
  (prev ≤ firstNonDisabled flat → hi = Z.of_nat (length flat) - 1 →
   (OnCyclic, ScrollToIndex (lastNonDisabled flat) None) ∈ calls r)
  ∧ (prev >= lastNonDisabled flat → hi = 0 →
     (OnCyclic, ScrollToIndex 0 None) ∈ calls r)
  ∧ (∀ (n : nat) o, flat !! n = Some o → notDisabled o = true →
       0 ≤ firstNonDisabled flat ≤ Z.of_nat n
       ∧ Z.of_nat n ≤ lastNonDisabled flat < Z.of_nat (length flat))
  ∧ (firstNonDisabled flat ≠ -1 →
     ∃ (n : nat) o, firstNonDisabled flat = Z.of_nat n ∧ flat !! n = Some o
                    ∧ notDisabled o = true)
  ∧ (lastNonDisabled flat ≠ -1 →
     ∃ (n : nat) o, lastNonDisabled flat = Z.of_nat n ∧ flat !! n = Some o
                    ∧ notDisabled o = true).
Proof.
  intros flat prev hi r Hchanged.
  destruct (boundaries_spec flat) as (Hbetween & Hfirst & Hlast & _).
  split; [|split; [|done]].
  - intros Hprev Hhi. subst r. rewrite elem_of_calls. simpl.
    rewrite cyclicCalls_changed by done. unfold cyclicEffect.
    fold flat prev hi. pose proof (prevHighlightedIndex_le prev).
    rewrite (proj2 (Z.leb_le _ _)) by lia.
    rewrite (proj2 (Z.eqb_eq _ _)) by done. simpl.
    rewrite elem_of_cons. by left.
  - intros Hprev Hhi. subst r. rewrite elem_of_calls. simpl.
    rewrite cyclicCalls_changed by done. unfold cyclicEffect.
    fold flat prev hi. rewrite prevHighlightedIndex_nonzero by lia.
    rewrite (proj2 (Z.geb_le _ _)) by lia.
    rewrite (proj2 (Z.eqb_eq hi 0)) by done. simpl.
    apply elem_of_app. right. rewrite elem_of_cons. by left.
Qed.

Lemma cyclic_wrap_around_witness :
  (OnCyclic, ScrollToIndex 2 None)
    ∈ calls (VirtualOptionsList (after ([] ++ [(sampleProps 0 true, rowsUpTo 3)]))
               (sampleProps 2 true) (rowsUpTo 3))
  ∧ (OnCyclic, ScrollToIndex 0 None)
      ∈ calls (VirtualOptionsList (after ([] ++ [(sampleProps 2 true, rowsUpTo 3)]))
                 (sampleProps 0 true) (rowsUpTo 3))
  ∧ (OnCyclic, ScrollToIndex 2 None)
      ∈ calls (VirtualOptionsList (after ([] ++ [(guardedProps 1, rowsUpTo 4)]))
                 (guardedProps 3) (rowsUpTo 4)).
Proof.
  split; [|split].
  - apply (cyclic_wrap_around [] (sampleProps 0 true) (rowsUpTo 3)
             (sampleProps 2 true) (rowsUpTo 3)); [done | vm_compute; discriminate | done].
  - apply (cyclic_wrap_around [] (sampleProps 2 true) (rowsUpTo 3)
             (sampleProps 0 true) (rowsUpTo 3)); [done | vm_compute; discriminate | done].
  - apply (cyclic_wrap_around [] (guardedProps 1) (rowsUpTo 4)
             (guardedProps 3) (rowsUpTo 4)); [done | vm_compute; discriminate | done].
Defined.

(** C6.  Whenever [open] goes from closed (at one render) to open (at the
    next), the effect on [open] calls the virtualizer's [scrollToIndex] with
    the current highlighted index and [{ align: 'end' }], and nothing else. *)
Theorem open_transition_scrolls_to_highlighted history p0 v0 p1 v1 :
  truthy (open p0) = false →
  truthy (open p1) = true →
  ∀ c, (OnOpen, c) ∈ calls (VirtualOptionsList (after (history ++ [(p0, v0)])) p1 v1)
       ↔ c = ScrollToIndex (highlightedIndexOf p1) (Some AlignEnd).
Proof.
  intros Hclosed Hopen c. rewrite elem_of_calls. simpl.
  rewrite openCalls_transition, list_elem_of_singleton; [done | | done].
  exists (open p0). by rewrite after_snoc, depsOpen_commit.
Qed.

Lemma open_transition_scrolls_to_highlighted_witness :
  truthy (open (sampleProps 1 false)) = false
  ∧ truthy (open (sampleProps 1 true)) = true
  ∧ (OnOpen, ScrollToIndex 1 (Some AlignEnd))
      ∈ calls (VirtualOptionsList (after ([] ++ [(sampleProps 1 false, rowsUpTo 3)]))
                 (sampleProps 1 true) (rowsUpTo 3)).
Proof.
  split; [reflexivity|]. split; [reflexivity|].
  apply (open_transition_scrolls_to_highlighted [] (sampleProps 1 false) (rowsUpTo 3)
           (sampleProps 1 true) (rowsUpTo 3)); reflexivity.
Defined.

(** C7.  When the highlighted index changes from one render to the next to
    a value other than [-1], the effect on [highlightedIndex] calls
    [scrollToIndex] on it with [{ align: 'end' }] exactly when no rendered
    virtual row carries that index; [open] plays no part.  When a rendered
    row carries the index, this effect issues no call. *)
Theorem highlight_follow_scroll history p0 v0 p1 v1 :
  highlightedIndexOf p0 ≠ highlightedIndexOf p1 →
  highlightedIndexOf p1 ≠ -1 →
  let r := VirtualOptionsList (after (history ++ [(p0, v0)])) p1 v1 in
  ((∀ row, row ∈ virtualItems v1 → Z.of_nat (index row) ≠ highlightedIndexOf p1) →
   ∀ c, (OnHighlighted, c) ∈ calls r
        ↔ c = ScrollToIndex (highlightedIndexOf p1) (Some AlignEnd))
  ∧ ((∃ row, row ∈ virtualItems v1 ∧ Z.of_nat (index row) = highlightedIndexOf p1) →
     ∀ c, (OnHighlighted, c) ∉ calls r).
Proof.
  intros Hchanged Hsome r. subst r. split.
  - intros Hhidden c. rewrite elem_of_calls. simpl. unfold highlightedCalls.
    rewrite after_snoc, depsHighlighted_commit, depsChanged_diff by done.
    by rewrite highlightedEffect_hidden, list_elem_of_singleton.
  - intros Hvisible c. rewrite elem_of_calls. simpl. unfold highlightedCalls.
    rewrite highlightedEffect_visible by done.
    destruct (depsChanged _ _); apply not_elem_of_nil.
Qed.

Lemma highlight_follow_scroll_witness :
  (OnHighlighted, ScrollToIndex 2 (Some AlignEnd))
    ∈ calls (VirtualOptionsList (after ([] ++ [(sampleProps 0 true, rowsUpTo 2)]))
               (sampleProps 2 true) (rowsUpTo 2))
  ∧ (OnHighlighted, ScrollToIndex 1 (Some AlignEnd))
      ∉ calls (VirtualOptionsList (after ([] ++ [(sampleProps 0 true, rowsUpTo 2)]))
                 (sampleProps 1 true) (rowsUpTo 2)).
Proof.
  split.
  - apply (highlight_follow_scroll [] (sampleProps 0 true) (rowsUpTo 2)
             (sampleProps 2 true) (rowsUpTo 2)); [done | done | | done].
    intros row Hrow. vm_compute in Hrow. simpl.
    apply list_elem_of_In in Hrow as [<-|[<-|[]]]; done.
  - apply (highlight_follow_scroll [] (sampleProps 0 true) (rowsUpTo 2)
             (sampleProps 1 true) (rowsUpTo 2)); [done | done |].
    exists {| index := 1; start := 40 |}. split; [|done].
    apply list_elem_of_In. vm_compute. tauto.
Defined.

(** C9.  The effect on [open] has no guard for "no highlight": when [open]
    becomes true while the highlighted index is [-1], it still calls
    [scrollToIndex(-1, { align: 'end' })], whereas the effect on
    [highlightedIndex] issues nothing for [-1]. *)
Theorem open_scroll_has_no_highlight_guard history p0 v0 p1 v1 :
  truthy (open p0) = false →
  truthy (open p1) = true →
  highlightedIndexOf p1 = -1 →
  let r := VirtualOptionsList (after (history ++ [(p0, v0)])) p1 v1 in
  (OnOpen, ScrollToIndex (-1) (Some AlignEnd)) ∈ calls r
  ∧ ∀ c, (OnHighlighted, c) ∉ calls r.
Proof.
  intros Hclosed Hopen Hnone r. subst r. split.
  - rewrite elem_of_calls. simpl.
    rewrite openCalls_transition, Hnone; [apply list_elem_of_singleton; done | | done].
    exists (open p0). by rewrite after_snoc, depsOpen_commit.
  - intros c. rewrite elem_of_calls. simpl. unfold highlightedCalls.
    rewrite Hnone, highlightedEffect_none.
    destruct (depsChanged _ _); apply not_elem_of_nil.
Qed.

Lemma open_scroll_has_no_highlight_guard_witness :
  (OnOpen, ScrollToIndex (-1) (Some AlignEnd))
    ∈ calls (VirtualOptionsList (after ([] ++ [(sampleProps (-1) false, rowsUpTo 3)]))
               (sampleProps (-1) true) (rowsUpTo 3)).
Proof.
  apply (open_scroll_has_no_highlight_guard [] (sampleProps (-1) false) (rowsUpTo 3)
           (sampleProps (-1) true) (rowsUpTo 3)); reflexivity.
Defined.

(** *** The height-invalidation key *)

Lemma keyUpToDate_mount : keyUpToDate mount.
Proof. intros rows total [=]. Qed.

Lemma keyUpToDate_commit h p v :
  keyUpToDate h →
  depsInvalidate (hooks (VirtualOptionsList h p v))
    = Some (length (virtualItems v), length (flatOptionsOf p))
  ∧ visibleOptionsInvalidateKey (hooks (VirtualOptionsList h p v))
    = invalidateKey (length (virtualItems v)) (length (flatOptionsOf p)).
Proof.
  intros Hinv. unfold_render. split; [done|].
  destruct (depsChanged _ _) eqn:Hdeps; [done|].
  apply depsChanged_false in Hdeps. by apply Hinv.
Qed.

Lemma keyUpToDate_after history : keyUpToDate (after history).
Proof.
  induction history as [|[p v] history IH] using rev_ind; [apply keyUpToDate_mount|].
  rewrite after_snoc. intros rows total.
  destruct (keyUpToDate_commit (after history) p v IH) as [-> ->]. by intros [= -> ->].
Qed.

Lemma key_after history p v :
  visibleOptionsInvalidateKey (after (history ++ [(p, v)]))
  = invalidateKey (length (virtualItems v)) (length (flatOptionsOf p)).
Proof. rewrite after_snoc. apply keyUpToDate_commit, keyUpToDate_after. Qed.

(** C4.  After every commit the height-invalidation key is [1] while at
    most one virtual row is rendered and the number of flat options as soon
    as more than one row is rendered; between two successive renders with
    more than one row each, a change of the number of flat options changes
    the key. *)
Theorem invalidate_key_deferred history p v p' v' :
  let rows := length (virtualItems v) in
  let total := length (flatOptionsOf p) in
  let key := visibleOptionsInvalidateKey (after (history ++ [(p, v)])) in
  let key' := visibleOptionsInvalidateKey (after ((history ++ [(p, v)]) ++ [(p', v')])) in
  ((rows ≤ 1)%nat → key = 1)
  ∧ ((1 < rows)%nat → key = Z.of_nat total)
  ∧ ((1 < rows)%nat → (1 < length (virtualItems v'))%nat →
     length (flatOptionsOf p') ≠ total →
     key' = Z.of_nat (length (flatOptionsOf p')) ∧ key' ≠ key).
Proof.
  intros rows total key key'. subst key key'. rewrite !key_after.
  fold rows total. unfold invalidateKey.
  split; [|split].
  - intros Hrows. destruct (Nat.ltb_spec 1 rows); [lia | done].
  - intros Hrows. destruct (Nat.ltb_spec 1 rows); [done | lia].
  - intros Hrows Hrows' Htotal.
    destruct (Nat.ltb_spec 1 rows); [|lia].
    destruct (Nat.ltb_spec 1 (length (virtualItems v'))); [|lia].
    split; [done | lia].
Qed.

Lemma invalidate_key_deferred_witness :
  visibleOptionsInvalidateKey (after ([] ++ [(sampleProps 0 true, rowsUpTo 1)])) = 1
  ∧ visibleOptionsInvalidateKey (after ([] ++ [(sampleProps 0 true, rowsUpTo 3)])) = 3
  ∧ visibleOptionsInvalidateKey
      (after (([] ++ [(sampleProps 0 true, rowsUpTo 3)])
              ++ [(sampleOf 1 [ItemGroup groupG] 0 true, rowsUpTo 2)]))
    ≠ visibleOptionsInvalidateKey (after ([] ++ [(sampleProps 0 true, rowsUpTo 3)])).
Proof.
  split; [|split].
  - pose proof (invalidate_key_deferred [] (sampleProps 0 true) (rowsUpTo 1)
                  (sampleProps 0 true) (rowsUpTo 1)) as (Hdeferred & _).
    apply Hdeferred. vm_compute. lia.
  - pose proof (invalidate_key_deferred [] (sampleProps 0 true) (rowsUpTo 3)
                  (sampleProps 0 true) (rowsUpTo 3)) as (_ & Hfull & _).
    apply Hfull. vm_compute. lia.
  - pose proof (invalidate_key_deferred [] (sampleProps 0 true) (rowsUpTo 3)
                  (sampleOf 1 [ItemGroup groupG] 0 true) (rowsUpTo 2))
      as (_ & _ & Hchange).
    apply Hchange; vm_compute; lia.
Defined.

(** *** The empty state *)

Lemma children_render h p v :
  children (VirtualOptionsList h p v)
  = [ Inner (totalSize v)
        (renderRow (flatOptionsOf p) (optionsOf h p).2
           (useMemo (memoGroupStartIndexes h) (optionsOf h p).1
              (λ _, groupStartIndexes (optionsOf h p).2)).1
           (highlightedIndexOf p) <$> virtualItems v);
      placeholderSlot (emptyPlaceholder p) (optionsOf h p).2 ].
Proof.
  unfold VirtualOptionsList. destruct (optionsOf h p). simpl.
  by destruct (useMemo _ _ _).
Qed.




(** A placeholder of [0] is what [&&] leaves, whatever [options] holds. *)
Lemma placeholderSlot_zero options :
  placeholderSlot (Some (RNum 0)) options = Value (Some (RNum 0)).
Proof. done. Qed.



(** *** The group-start index map *)

Section GroupStart.
Local Open Scope nat_scope.

Lemma flatten_cons item (l : list OptionsItem) :
  flatten (item :: l)
  = match item with
    | ItemOption o => [o]
    | ItemGroup g => groupOptions g
    end ++ flatten l.
Proof. done. Qed.

Lemma flatten_app (l1 l2 : list OptionsItem) :
  flatten (l1 ++ l2) = flatten l1 ++ flatten l2.
Proof. unfold flatten. apply flat_map_app. Qed.

Lemma groupStartStep_fst cur acc item i :
  (groupStartStep (cur, acc) item i).1 = cur + length (flatten [item]).
Proof.
  destruct item; simpl; [done|]. by rewrite app_nil_r.
Qed.

(** Keys below the running flat position are never written. *)
Lemma reduceFrom_below (l : list OptionsItem) i cur (acc : gmap nat nat) k :
  k < cur →
  (reduceFrom groupStartStep l i (cur, acc)).2 !! k = acc !! k.
Proof.
  revert i cur acc. induction l as [|item l IH]; intros i cur acc Hk; [done|].
  destruct item as [o|g]; simpl.
  - apply IH. lia.
  - rewrite IH by lia. apply lookup_insert_ne. lia.
Qed.

(** A key of the result is a key of the accumulator, or the flat position at
    which some group of the list starts, with that group's index as value. *)
Lemma reduceFrom_lookup (l : list OptionsItem) i cur (acc : gmap nat nat) k j :
  (reduceFrom groupStartStep l i (cur, acc)).2 !! k = Some j →
  acc !! k = Some j
  ∨ ∃ n g, j = i + n ∧ l !! n = Some (ItemGroup g)
           ∧ k = cur + length (flatten (take n l)).
Proof.
  revert i cur acc. induction l as [|item l IH]; intros i cur acc Hk; [by left|].
  destruct item as [o|g]; simpl in Hk; apply IH in Hk.
  - destruct Hk as [Hk|(n & g & -> & Hn & ->)]; [by left|].
    right. exists (S n), g. simpl. repeat split; [lia | done | lia].
  - destruct Hk as [Hk|(n & g' & -> & Hn & ->)].
    + destruct (decide (cur = k)) as [->|Hne].
      * rewrite lookup_insert_eq in Hk. injection Hk as <-.
        right. exists 0, g. simpl. repeat split; [lia | lia].
      * rewrite lookup_insert_ne in Hk by done. by left.
    + right. exists (S n), g'. rewrite firstn_cons, flatten_cons, length_app.
      repeat split; [lia | done | lia].
Qed.

(** A group with at least one member is recorded at the flat position of
    its first member. *)
Lemma reduceFrom_nonempty (l : list OptionsItem) i cur (acc : gmap nat nat) n g :
  l !! n = Some (ItemGroup g) → groupOptions g ≠ [] →
  (reduceFrom groupStartStep l i (cur, acc)).2 !! (cur + length (flatten (take n l)))
  = Some (i + n).
Proof.
  revert i cur acc n. induction l as [|item l IH]; intros i cur acc n Hn Hg; [done|].
  destruct n as [|n]; simpl in Hn.
  - injection Hn as ->. simpl.
    rewrite reduceFrom_below.
    + rewrite Nat.add_0_r, lookup_insert_eq. f_equal. lia.
    + destruct (groupOptions g); [done | simpl; lia].
  - rewrite firstn_cons, flatten_cons, length_app.
    replace (i + S n) with (S i + n) by lia.
    destruct item as [o|g']; simpl.
    + replace (cur + S (length (flatten (take n l))))
        with (cur + 1 + length (flatten (take n l))) by lia.
      by apply IH.
    + rewrite Nat.add_assoc. by apply IH.
Qed.

Lemma groupStartIndexes_lookup (options : list OptionsItem) k j :
  groupStartIndexes options !! k = Some j →
  ∃ g, options !! j = Some (ItemGroup g) ∧ k = length (flatten (take j options)).
Proof.
  unfold groupStartIndexes. intros [Hk|(n & g & -> & Hn & ->)]%reduceFrom_lookup.
  - by rewrite lookup_empty in Hk.
  - by exists g.
Qed.

Lemma flatten_lookup_first (options : list OptionsItem) j g o :
  options !! j = Some (ItemGroup g) → head (groupOptions g) = Some o →
  flatten options !! length (flatten (take j options)) = Some o.
Proof.
  intros Hj Ho.
  assert (flatten options
          = flatten (take j options) ++ groupOptions g ++ flatten (drop (S j) options)) as ->.
  { pose proof (take_drop_middle options j _ Hj) as Hsplit.
    rewrite <- Hsplit at 1. by rewrite flatten_app, flatten_cons. }
  rewrite lookup_app_r by lia.
  rewrite Nat.sub_diag. destruct (groupOptions g); [done|]. simpl in *. congruence.
Qed.

End GroupStart.

(** *** Memoisation of the map *)

Lemma memo_commit h p v :
  let r := useMemo (memoGroupStartIndexes h) (optionsOf h p).1
             (λ _, groupStartIndexes (optionsOf h p).2) in
  memoGroupStartIndexes (hooks (VirtualOptionsList h p v)) = Some ((optionsOf h p).1, r.1)
  ∧ memoRuns (hooks (VirtualOptionsList h p v))
    = if r.2 then S (memoRuns h) else memoRuns h.
Proof.
  unfold VirtualOptionsList. destruct (optionsOf h p). simpl.
  by destruct (useMemo _ _ _).
Qed.

Lemma memo_same_identity history p0 v0 p1 v1 id l0 l1 :
  options p0 = Some (id, l0) → options p1 = Some (id, l1) →
  let h0 := after (history ++ [(p0, v0)]) in
  let h1 := after ((history ++ [(p0, v0)]) ++ [(p1, v1)]) in
  memoRuns h1 = memoRuns h0 ∧ memoGroupStartIndexes h1 = memoGroupStartIndexes h0.
Proof.
  intros H0 H1 h0 h1. subst h1. rewrite after_snoc. fold h0.
  destruct (memo_commit h0 p1 v1) as [-> ->].
  assert (∃ m, memoGroupStartIndexes h0 = Some (CallerArray id, m)) as [m Hm].
  { subst h0. rewrite after_snoc.
    destruct (memo_commit (after history) p0 v0) as [-> _].
    unfold optionsOf. rewrite H0. eauto. }
  unfold optionsOf. rewrite H1, Hm. simpl.
  by rewrite bool_decide_eq_true_2.
Qed.

Lemma memo_other_identity history p0 v0 p1 v1 id0 id1 l0 l1 :
  options p0 = Some (id0, l0) → options p1 = Some (id1, l1) → id0 ≠ id1 →
  let h0 := after (history ++ [(p0, v0)]) in
  let h1 := after ((history ++ [(p0, v0)]) ++ [(p1, v1)]) in
  memoRuns h1 = S (memoRuns h0)
  ∧ memoGroupStartIndexes h1 = Some (CallerArray id1, groupStartIndexes l1).
Proof.
  intros H0 H1 Hne h0 h1. subst h1. rewrite after_snoc. fold h0.
  destruct (memo_commit h0 p1 v1) as [-> ->].
  assert (∃ m, memoGroupStartIndexes h0 = Some (CallerArray id0, m)) as [m Hm].
  { subst h0. rewrite after_snoc.
    destruct (memo_commit (after history) p0 v0) as [-> _].
    unfold optionsOf. rewrite H0. eauto. }
  unfold optionsOf. rewrite H1, Hm. simpl.
  rewrite bool_decide_eq_false_2; [done | congruence].
Qed.

Lemma renderCount_commit h p v :
  renderCount (hooks (VirtualOptionsList h p v)) = S (renderCount h).
Proof. by unfold_render. Qed.

Lemma memo_default_array history p0 v0 p1 v1 :
  options p0 = None → options p1 = None →
  let h0 := after (history ++ [(p0, v0)]) in
  let h1 := after ((history ++ [(p0, v0)]) ++ [(p1, v1)]) in
  memoRuns h1 = S (memoRuns h0).
Proof.
  intros H0 H1 h0 h1. subst h1. rewrite after_snoc. fold h0.
  destruct (memo_commit h0 p1 v1) as [_ ->].
  assert (memoGroupStartIndexes h0
          = Some (DefaultArray (renderCount (after history)),
                  (useMemo (memoGroupStartIndexes (after history))
                     (DefaultArray (renderCount (after history)))
                     (λ _, groupStartIndexes [])).1)) as Hm.
  { subst h0. rewrite after_snoc.
    destruct (memo_commit (after history) p0 v0) as [-> _].
    unfold optionsOf. by rewrite H0. }
  assert (renderCount h0 = S (renderCount (after history))) as Hcount.
  { subst h0. by rewrite after_snoc, renderCount_commit. }
  unfold optionsOf. rewrite H1, Hm, Hcount. simpl.
  rewrite bool_decide_eq_false_2; [done|]. intros [= Heq]. lia.
Qed.

Lemma memo_once_per_render h p v :
  (memoRuns (hooks (VirtualOptionsList h p v)) ≤ S (memoRuns h))%nat.
Proof.
  destruct (memo_commit h p v) as [_ ->]. destruct (useMemo _ _ _).2; lia.
Qed.

(** C2, as the claim states it, fails: a group without members is recorded
    too, at the flat position of whatever follows it, so a key need not
    belong to the first member of any group. *)
Lemma keys_are_first_members_counterexample : ¬ keysAreFirstMembers.
Proof.
  intros Hclaim.
  destruct (Hclaim [ItemGroup emptyGroup; ItemOption optZ] 0%nat)
    as (j & g & o & Hj & Ho & _).
  - exists 0%nat. reflexivity.
  - destruct j as [|[|j]]; simpl in Hj; [|done..].
    injection Hj as <-. done.
Qed.

(** C2, amended.  For [options = [Z, {label: "G", options: [X, Y]}]] the
    flattened sequence is [[Z, X, Y]], the map is exactly [{1: 1}], entry 1
    of [options] is the group, and the row of flat index 1 renders the
    header of G above the item X.  In general every key of the map is the
    flat position at which some group starts (the number of flat options
    before it) and its value the index of that group in [options]; when the
    group has members, this is the flat index of its first member, and
    every group with members is recorded so.  The map is computed at most
    once per render, whatever the number of rows, and is not recomputed
    while the identity of the [options] array is that of the preceding
    render; it is recomputed when the array is another one, which includes
    the fresh [[]] every render allocates when the prop is left out. *)
Theorem group_start_indexes_spec :
  (let options := [ItemOption optZ; ItemGroup groupG] in
   flatten options = [optZ; optX; optY]
   ∧ groupStartIndexes options = {[ 1%nat := 1%nat ]}
   ∧ options !! 1%nat = Some (ItemGroup groupG)
   ∧ ∃ rows,
       children (VirtualOptionsList mount (sampleOf 0 options 0 true) (rowsUpTo 3))
       = [Inner 120 rows; Value None]
       ∧ rows !! 1%nat
         = Some (Some {| rowKey := 1; rowHighlighted := false; rowTranslateY := 40;
                         rowChildren := [OptgroupElement (Some "G"%string);
                                         OptionElement optX 1] |}))
  ∧ (∀ (options : list OptionsItem) (k j : nat),
       groupStartIndexes options !! k = Some j →
       ∃ g, options !! j = Some (ItemGroup g)
            ∧ k = length (flatten (take j options))
            ∧ ∀ o, head (groupOptions g) = Some o → flatten options !! k = Some o)
  ∧ (∀ (options : list OptionsItem) (j : nat) g,
       options !! j = Some (ItemGroup g) → groupOptions g ≠ [] →
       groupStartIndexes options !! length (flatten (take j options)) = Some j)
  ∧ (∀ h p v, (memoRuns (hooks (VirtualOptionsList h p v)) ≤ S (memoRuns h))%nat)
  ∧ (∀ history p0 v0 p1 v1 id l0 l1,
       options p0 = Some (id, l0) → options p1 = Some (id, l1) →
       let h0 := after (history ++ [(p0, v0)]) in
       let h1 := after ((history ++ [(p0, v0)]) ++ [(p1, v1)]) in
       memoRuns h1 = memoRuns h0 ∧ memoGroupStartIndexes h1 = memoGroupStartIndexes h0)
  ∧ (∀ history p0 v0 p1 v1 id0 id1 l0 l1,
       options p0 = Some (id0, l0) → options p1 = Some (id1, l1) → id0 ≠ id1 →
       let h0 := after (history ++ [(p0, v0)]) in
       let h1 := after ((history ++ [(p0, v0)]) ++ [(p1, v1)]) in
       memoRuns h1 = S (memoRuns h0)
       ∧ memoGroupStartIndexes h1 = Some (CallerArray id1, groupStartIndexes l1))
  ∧ (∀ history p0 v0 p1 v1,
       options p0 = None → options p1 = None →
       let h0 := after (history ++ [(p0, v0)]) in
       let h1 := after ((history ++ [(p0, v0)]) ++ [(p1, v1)]) in
       memoRuns h1 = S (memoRuns h0)).
Proof.
  split; [|split; [|split; [|split; [|split; [|split]]]]].
  - repeat split; try reflexivity. eexists. split; reflexivity.
  - intros options k j Hk.
    destruct (groupStartIndexes_lookup options k j Hk) as (g & Hj & ->).
    exists g. repeat split; [done|]. intros o Ho. by eapply flatten_lookup_first.
  - intros options j g Hj Hg. unfold groupStartIndexes.
    exact (reduceFrom_nonempty options 0%nat 0%nat ∅ j g Hj Hg).
  - apply memo_once_per_render.
  - apply memo_same_identity.
  - apply memo_other_identity.
  - apply memo_default_array.
Qed.

Lemma group_start_indexes_spec_witness :
  (∃ g, [ItemGroup emptyGroup; ItemOption optZ; ItemGroup groupG] !! 2%nat
        = Some (ItemGroup g)
        ∧ flatten [ItemGroup emptyGroup; ItemOption optZ; ItemGroup groupG] !! 1%nat
          = head (groupOptions g))
  ∧ memoRuns (after (([] ++ [(sampleProps 0 true, rowsUpTo 3)])
                     ++ [(sampleProps 1 true, rowsUpTo 3)]))
    = memoRuns (after ([] ++ [(sampleProps 0 true, rowsUpTo 3)])).
Proof.
  destruct group_start_indexes_spec as (_ & Hkeys & _ & _ & Hsame & _ & _).
  split.
  - destruct (Hkeys [ItemGroup emptyGroup; ItemOption optZ; ItemGroup groupG] 1%nat 2%nat)
      as (g & Hg & _ & Hfirst); [reflexivity|].
    exists g. split; [done|]. injection Hg as <-. by apply Hfirst.
  - eapply (Hsame [] (sampleProps 0 true) (rowsUpTo 3) (sampleProps 1 true) (rowsUpTo 3));
      reflexivity.
Defined.

End VirtualOptionsListFacts.

(** ** Popover *)
Module PopoverFacts.
Import React ReactFacts Popover.

(** *** The modifier list *)

(** C3, as the claim states it, fails: with [preventFlip] set and
    [fallbackPlacements] given, both flip modifiers are in the list. *)
Lemma at_most_one_flip_counterexample : ¬ atMostOneFlip.
Proof.
  intros Hclaim. specialize (Hclaim flipProps None). vm_compute in Hclaim. lia.
Qed.

(** C3, amended.  The list handed to the positioning engine holds, in this
    order: the offset modifier, always; the arrow modifier exactly when
    [withArrow] is true; a flip modifier with an empty fallback list when
    [preventFlip] is true; a flip modifier with the caller's list when
    [fallbackPlacements] is given; the preventOverflow modifier exactly when
    [preventOverflow] is not false.  Both flip modifiers are in the list,
    the empty one first, when [preventFlip] is true and
    [fallbackPlacements] is given, and there is no other flip modifier. *)
Theorem modifiers_assembly mounted cells p env :
  let ms := modifiers (Popover mounted cells p env) in
  let flip := λ fallback, {| name := "flip"; options := FlipOptions fallback |} in
  ms = [{| name := "offset"; options := OffsetOptions (default (0, 0)%Z (offset p)) |}]
       ++ named "arrow" ms ++ named "flip" ms ++ named "preventOverflow" ms
  ∧ named "arrow" ms
    = (if default false (withArrow p)
       then [{| name := "arrow"; options := ArrowOptions (arrowElement env) |}] else [])
  ∧ named "flip" ms
    = (if truthy (preventFlip p) then [flip []] else [])
      ++ match fallbackPlacements p with
         | Some fallbackPlacements => [flip fallbackPlacements]
         | None => []
         end
  ∧ named "preventOverflow" ms
    = (if default true (preventOverflow p)
       then [{| name := "preventOverflow"; options := PreventOverflowOptions false |}]
       else [])
  ∧ (∀ fallback, flip fallback ∈ ms
                 ↔ (truthy (preventFlip p) = true ∧ fallback = [])
                   ∨ fallbackPlacements p = Some fallback).
Proof.
  intros ms flip. subst ms flip.
  change (modifiers (Popover mounted cells p env)) with (getModifiers p (arrowElement env)).
  unfold getModifiers, named, truthy.
  destruct (withArrow p) as [[]|], (preventFlip p) as [[]|],
    (fallbackPlacements p) as [fallback|], (preventOverflow p) as [[]|];
    (split; [reflexivity|]); (split; [reflexivity|]); (split; [reflexivity|]);
    (split; [reflexivity|]); intros fallback'; simpl;
    rewrite ?elem_of_cons, ?elem_of_nil; intuition congruence.
Qed.

(** *** The caller's [update] ref *)

Lemma after_popover_snoc cells history pe :
  after cells (history ++ [pe]) = step (after cells history) pe.
Proof. unfold after. by rewrite fold_left_app. Qed.

Lemma storeUpdate_preserves update updatePopper (cells : gmap nat nat) r fn :
  cells !! r = Some fn → (storeUpdate update updatePopper cells).1 !! r = Some fn.
Proof.
  intros Hr. unfold storeUpdate.
  destruct update as [u|], updatePopper as [fn'|]; try done.
  destruct (cells !! u) eqn:Hu; [done|]. simpl.
  rewrite lookup_insert_ne; [done | congruence].
Qed.

Lemma storeUpdate_assign update updatePopper (cells : gmap nat nat) r fn :
  Assign r fn ∈ (storeUpdate update updatePopper cells).2
  ↔ update = Some r ∧ cells !! r = None ∧ updatePopper = Some fn.
Proof.
  unfold storeUpdate.
  destruct update as [u|], updatePopper as [fn'|]; simpl;
    try (rewrite elem_of_nil; split; [done | by intros ([=] & _ & [=])]).
  destruct (cells !! u) eqn:Hu; simpl.
  - rewrite elem_of_nil. split; [done|]. intros ([= ->] & ? & _). congruence.
  - rewrite list_elem_of_singleton. split.
    + by intros [= -> ->].
    + by intros ([= ->] & _ & [= ->]).
Qed.

Lemma storeUpdate_unset update updatePopper (cells : gmap nat nat) r fn :
  update = Some r → cells !! r = None → updatePopper = Some fn →
  (storeUpdate update updatePopper cells).1 !! r = Some fn.
Proof. intros -> Hr ->. unfold storeUpdate. rewrite Hr. apply lookup_insert_eq. Qed.

Lemma observerEffect_events mounted deps ev :
  ev ∈ (observerEffect mounted deps).2 →
  (∃ cb, ev = NewObserver cb) ∨ (∃ e, ev = Observe e) ∨ (∃ o, ev = Disconnect o).
Proof.
  unfold observerEffect, observeAnchor.
  destruct mounted as [h|]; [destruct (depsChanged _ _)|];
    destruct deps.1.1; simpl; rewrite ?elem_of_cons, ?elem_of_nil;
    intuition eauto.
Qed.

Lemma elem_of_events_assign mounted cells p env r fn :
  Assign r fn ∈ events (Popover mounted cells p env)
  ↔ Assign r fn ∈ (storeUpdate (update p) (updatePopper env) cells).2.
Proof.
  unfold Popover. simpl. rewrite !elem_of_app. split; [|auto].
  intros [Hin|[Hin|[Hin|Hin]]]; [| |done|].
  - destruct (depsChanged _ _); [apply list_elem_of_singleton in Hin|]; by inversion Hin.
  - destruct (depsChanged _ _), (updatePopper env);
      try apply list_elem_of_singleton in Hin; by inversion Hin.
  - apply observerEffect_events in Hin as [[cb [=]]|[[e [=]]|[o [=]]]].
Qed.

Lemma step_preserves history st r fn :
  st.2 !! r = Some fn → (fold_left step history st).2 !! r = Some fn.
Proof.
  revert st. induction history as [|pe history IH]; intros st Hr; [done|].
  simpl. apply IH. simpl. by apply storeUpdate_preserves.
Qed.

(** C10.  The effect stores the engine's recompute function in the caller's
    ref exactly when a ref is given, its [current] is unset and the engine
    has produced a function.  A render leaves a [current] that is set as it
    is, whatever function the engine produces then, and so does every
    sequence of renders: the stored handle is never replaced. *)
Theorem update_ref_write_once :
  (∀ mounted cells p env r fn,
     Assign r fn ∈ events (Popover mounted cells p env)
     ↔ update p = Some r ∧ cells !! r = None ∧ updatePopper env = Some fn)
  ∧ (∀ mounted cells p env r fn,
       update p = Some r → cells !! r = None → updatePopper env = Some fn →
       refs (Popover mounted cells p env) !! r = Some fn)
  ∧ (∀ mounted cells p env r fn,
       cells !! r = Some fn → refs (Popover mounted cells p env) !! r = Some fn)
  ∧ (∀ history mounted cells r fn,
       cells !! r = Some fn →
       (fold_left step history (mounted, cells)).2 !! r = Some fn).
Proof.
  split; [|split; [|split]].
  - intros. by rewrite elem_of_events_assign, storeUpdate_assign.
  - intros. by apply storeUpdate_unset.
  - intros. by apply storeUpdate_preserves.
  - intros. by apply step_preserves.
Qed.

Lemma update_ref_write_once_witness :
  (after ∅ [(sampleProps (Some anchorA) true (Some 5), sampleEnv (Some 7) 100)]).2 !! 5
    = Some 7
  ∧ (after ∅ [(sampleProps (Some anchorA) true (Some 5), sampleEnv (Some 7) 100);
              (sampleProps (Some anchorA) true (Some 5), sampleEnv (Some 8) 100);
              (sampleProps (Some anchorB) true (Some 5), sampleEnv (Some 9) 100)]).2 !! 5
    = Some 7.
Proof.
  destruct update_ref_write_once as (_ & Hunset & _ & Hkept).
  split.
  - apply (Hunset None ∅ (sampleProps (Some anchorA) true (Some 5)) (sampleEnv (Some 7) 100));
      reflexivity.
  - apply (Hkept [(sampleProps (Some anchorA) true (Some 5), sampleEnv (Some 8) 100);
                  (sampleProps (Some anchorB) true (Some 5), sampleEnv (Some 9) 100)]).
    reflexivity.
Defined.

(** *** The resize observer and the width of the panel *)

Lemma consistent_commit mounted cells p env :
  (∀ h, mounted = Some h → consistent h) →
  consistent (hooks (Popover mounted cells p env)).
Proof.
  intros Hmounted. unfold consistent, Popover, observerEffect. simpl. split.
  - destruct mounted as [h|]; [|done].
    case_bool_decide as Hdeps; [done|].
    destruct (Hmounted h eq_refl) as [-> _]. by rewrite Hdeps.
  - destruct mounted as [h|]; [|done]. simpl.
    case_bool_decide as Hdeps; [done|].
    destruct (Hmounted h eq_refl) as [_ ->]. done.
Qed.

Lemma consistent_after cells history h :
  (after cells history).1 = Some h → consistent h.
Proof.
  revert h. induction history as [|pe history IH] using rev_ind; intros h; [done|].
  rewrite after_popover_snoc. intros Hh.
  change (Some (hooks (Popover (after cells history).1 (after cells history).2
                         pe.1 pe.2)) = Some h) in Hh.
  apply (inj Some) in Hh as <-. by apply consistent_commit.
Qed.

Lemma observer_commit cells history p env :
  observer (hooks (Popover (after cells history).1 (after cells history).2 p env))
  = {| callback := {| cbUseAnchorWidth := useAnchorWidth p; cbUpdate := update p |};
       observed := match anchorElement p with
                   | Some e => [e]
                   | None => []
                   end |}.
Proof.
  destruct (consistent_commit (after cells history).1 (after cells history).2 p env)
    as [-> _]; [apply consistent_after|].
  simpl. by destruct (anchorElement p).
Qed.

Lemma referenceElement_commit cells history p env :
  referenceElement (hooks (Popover (after cells history).1 (after cells history).2 p env))
  = anchorElement p.
Proof.
  by destruct (consistent_commit (after cells history).1 (after cells history).2 p env)
    as [_ ->]; [apply consistent_after|].
Qed.

Lemma panelStyle_width p e env :
  truthy (useAnchorWidth p) = true → popperStyles env !! "width"%string = None →
  panelStyle p (Some e) env !! "width"%string = Some (Number (offsetWidth env e)).
Proof.
  intros Hwidth Hpopper. unfold panelStyle. rewrite Hwidth. simpl.
  rewrite lookup_union_r by done. apply lookup_insert_eq.
Qed.

(** C8, as the claim states it, fails: without an [update] ref from the
    caller, a size change of the observed anchor invokes nothing, although
    [useAnchorWidth] is enabled. *)
Lemma resize_always_recomputes_counterexample : ¬ resizeAlwaysRecomputes.
Proof.
  intros Hclaim.
  destruct (Hclaim ∅ [] (sampleProps (Some anchorA) true None) (sampleEnv (Some 7) 100)
              anchorA) as [fn Hfn]; [done..|].
  by apply elem_of_nil in Hfn.
Qed.

(** C8, amended.  After the commit of any render the live observer watches
    the anchor when [anchorElement] is not null and nothing when it is null.
    On a size change of the anchor the function stored in the caller's
    [update] ref is invoked when [useAnchorWidth] is enabled, the ref is
    given and its [current] is set; otherwise nothing is invoked.  At the
    following render the panel is rendered with the width of the anchor as
    measured then, when [useAnchorWidth] is enabled and the engine's style
    sets no width.  The observer is disconnected when a later render has
    another anchor, and on unmount. *)
Theorem resize_resync cells history p env :
  let r := Popover (after cells history).1 (after cells history).2 p env in
  let h := hooks r in
  observed (observer h) = match anchorElement p with
                          | Some e => [e]
                          | None => []
                          end
  ∧ (∀ cells' e u fn,
       anchorElement p = Some e → truthy (useAnchorWidth p) = true →
       update p = Some u → cells' !! u = Some fn →
       resize h cells' e = [Invoke fn])
  ∧ (∀ cells' e,
       anchorElement p ≠ Some e ∨ truthy (useAnchorWidth p) = false ∨ update p = None
       ∨ (∃ u, update p = Some u ∧ cells' !! u = None) →
       resize h cells' e = [])
  ∧ (∀ cells' p' env' e,
       anchorElement p = Some e → truthy (useAnchorWidth p') = true →
       popperStyles env' !! "width"%string = None →
       let r' := Popover (Some h) cells' p' env' in
       contentOf (view r')
       = (if default true (withTransition p') || open p'
          then Some (renderContent p' (Some e) env') else None)
       ∧ style (renderContent p' (Some e) env') !! "width"%string
         = Some (Number (offsetWidth env' e)))
  ∧ (∀ cells' p' env',
       anchorElement p' ≠ anchorElement p →
       Disconnect (observer h) ∈ events (Popover (Some h) cells' p' env'))
  ∧ unmount h = [Disconnect (observer h)].
Proof.
  intros r h. subst h r.
  pose proof (observer_commit cells history p env) as Hobserver.
  pose proof (referenceElement_commit cells history p env) as Hreference.
  set (h := hooks (Popover _ _ p env)) in *.
  split; [|split; [|split; [|split; [|split]]]].
  - by rewrite Hobserver.
  - intros cells' e u fn Hanchor Hwidth Hupdate Hcell.
    unfold resize, updatePopoverWidth. rewrite Hobserver. simpl.
    rewrite Hanchor, bool_decide_eq_true_2 by (by apply list_elem_of_singleton).
    by rewrite Hwidth, Hupdate, Hcell.
  - intros cells' e Hcase.
    unfold resize, updatePopoverWidth. rewrite Hobserver. simpl.
    case_bool_decide as Hobserved; [|done].
    destruct Hcase as [Hanchor|[Hwidth|[Hupdate|(u & Hupdate & Hcell)]]].
    + destruct (anchorElement p) as [e'|]; [|by apply elem_of_nil in Hobserved].
      apply list_elem_of_singleton in Hobserved. congruence.
    + by rewrite Hwidth.
    + rewrite Hupdate. by destruct (truthy _).
    + rewrite Hupdate, Hcell. by destruct (truthy _).
  - intros cells' p' env' e Hanchor Hwidth Hpopper.
    split; [|by apply panelStyle_width].
    unfold Popover. cbn [view]. rewrite Hreference, Hanchor.
    by destruct (default true (withTransition p')), (open p').
  - intros cells' p' env' Hanchor. unfold Popover, observerEffect. simpl.
    rewrite !elem_of_app. do 3 right.
    rewrite bool_decide_eq_true_2.
    + cbn [snd]. rewrite elem_of_cons. by left.
    + congruence.
  - done.
Qed.

Lemma resize_resync_witness :
  resize (hooks (Popover (after ∅ []).1 (after ∅ []).2
                   (sampleProps (Some anchorA) true (Some 5)) (sampleEnv (Some 7) 100)))
    {[ 5 := 7 ]} anchorA
  = [Invoke 7]
  ∧ resize (hooks (Popover (after ∅ []).1 (after ∅ []).2
                     (sampleProps (Some anchorA) true None) (sampleEnv (Some 7) 100)))
      ∅ anchorA
    = [].
Proof.
  split.
  - apply (resize_resync ∅ [] (sampleProps (Some anchorA) true (Some 5))
             (sampleEnv (Some 7) 100)) with (u := 5); reflexivity.
  - apply (resize_resync ∅ [] (sampleProps (Some anchorA) true None)
             (sampleEnv (Some 7) 100)). right. right. left. reflexivity.
Defined.

End PopoverFacts.

(** ** VirtualOptionsList: renders, rows and headers *)
Module VirtualOptionsListMore.
Import React ReactFacts VirtualOptionsList VirtualOptionsListFacts.

Local Open Scope Z_scope.

(** *** Renders that change nothing, and the first render *)

Lemma calls_render h p v :
  calls (VirtualOptionsList h p v)
  = (pair OnOpen <$> openCalls h p)
    ++ (pair OnHighlighted <$> highlightedCalls h p v)
    ++ (pair OnCyclic <$> cyclicCalls h p).
Proof. by unfold_render. Qed.

(** X1.  A render with the same [open] and the same highlighted index as
    the render before it, whose own predecessor had that highlighted index
    too, issues no call at all, whatever happened to the options, the flat
    options and the virtual rows. *)
Theorem steady_render_is_silent history p0 v0 p1 v1 p2 v2 :
  highlightedIndexOf p0 = highlightedIndexOf p1 →
  highlightedIndexOf p1 = highlightedIndexOf p2 →
  open p1 = open p2 →
  calls (VirtualOptionsList (after ((history ++ [(p0, v0)]) ++ [(p1, v1)])) p2 v2) = [].
Proof.
  intros H01 H12 Hopen. rewrite calls_render.
  unfold openCalls, highlightedCalls, cyclicCalls.
  rewrite (after_snoc (history ++ [(p0, v0)])).
  rewrite depsOpen_commit, depsHighlighted_commit, depsCyclic_commit, previousRef_commit.
  rewrite after_snoc, previousRef_commit.
  rewrite Hopen, H01, H12, !depsChanged_same. done.
Qed.

Lemma steady_render_is_silent_witness :
  calls (VirtualOptionsList
           (after (([] ++ [(sampleProps 2 true, rowsUpTo 1)])
                   ++ [(sampleProps 2 true, rowsUpTo 2)]))
           (sampleOf 1 [ItemGroup groupG] 2 true) (rowsUpTo 0)) = [].
Proof.
  apply (steady_render_is_silent [] (sampleProps 2 true) (rowsUpTo 1)
           (sampleProps 2 true) (rowsUpTo 2)); reflexivity.
Defined.

Lemma firstNonDisabled_ge flat : -1 ≤ firstNonDisabled flat.
Proof.
  unfold firstNonDisabled, findIndex.
  destruct (findIndexFrom_spec notDisabled flat 0) as [[-> _]|(n & x & -> & _)]; lia.
Qed.

Lemma lastNonDisabled_ge flat : -1 ≤ lastNonDisabled flat.
Proof.
  unfold lastNonDisabled, lastIndexOf.
  destruct (lastIndexFrom_spec notDisabled flat 0 (-1)) as [[-> _]|(n & x & -> & _)]; lia.
Qed.

(** X2.  On the first render the wrap-around effect runs with the previous
    index taken as [-1]: it scrolls to the last non-disabled option exactly
    when the highlighted index is [flatOptions.length - 1] (also for an
    empty list without highlight, where the call is [scrollToIndex(-1)]),
    and to [0] exactly when [0] is highlighted and no option is enabled. *)
Theorem mount_wrap_scroll p v :
  let flat := flatOptionsOf p in
  let hi := highlightedIndexOf p in
  (∀ c, (OnCyclic, c) ∈ calls (VirtualOptionsList mount p v)
        ↔ (hi = Z.of_nat (length flat) - 1 ∧ c = ScrollToIndex (lastNonDisabled flat) None)
          ∨ (hi = 0 ∧ lastNonDisabled flat = -1 ∧ c = ScrollToIndex 0 None))
  ∧ (flat = [] → hi = -1 →
     (OnCyclic, ScrollToIndex (-1) None) ∈ calls (VirtualOptionsList mount p v)).
Proof.
  intros flat hi.
  assert (∀ c, (OnCyclic, c) ∈ calls (VirtualOptionsList mount p v)
        ↔ (hi = Z.of_nat (length flat) - 1 ∧ c = ScrollToIndex (lastNonDisabled flat) None)
          ∨ (hi = 0 ∧ lastNonDisabled flat = -1 ∧ c = ScrollToIndex 0 None)) as Hiff.
  { intros c. rewrite elem_of_calls. simpl. unfold cyclicCalls, cyclicEffect. simpl.
    fold flat hi.
    pose proof (firstNonDisabled_ge flat). pose proof (lastNonDisabled_ge flat).
    rewrite (proj2 (Z.leb_le (-1) (firstNonDisabled flat))) by done. simpl.
    rewrite elem_of_app.
    destruct (Z.eqb_spec hi (Z.of_nat (length flat) - 1)) as [Hlast|Hlast];
      destruct (Z.geb_spec (-1) (lastNonDisabled flat)) as [Hnone|Hnone];
      destruct (Z.eqb_spec hi 0) as [Hzero|Hzero]; simpl;
      rewrite ?list_elem_of_singleton, ?elem_of_nil;
      intuition (try lia; try congruence). }
  split; [done|].
  intros Hflat Hhi. apply Hiff. left. unfold hi, flat in *.
  rewrite Hhi, Hflat. done.
Qed.

Lemma mount_wrap_scroll_witness :
  (OnCyclic, ScrollToIndex (-1) None)
    ∈ calls (VirtualOptionsList mount
               {| flatOptions := None; highlightedIndex := None; open := None;
                  options := None; emptyPlaceholder := None |} (rowsUpTo 0)).
Proof.
  apply (mount_wrap_scroll
           {| flatOptions := None; highlightedIndex := None; open := None;
              options := None; emptyPlaceholder := None |} (rowsUpTo 0)); reflexivity.
Defined.

(** X3.  When the list opens at the very render at which the highlight
    moves to an index that no rendered row carries, the same call
    [scrollToIndex(highlightedIndex, { align: 'end' })] is issued twice in a
    row, once by each effect. *)
Theorem open_and_follow_scroll_twice history p0 v0 p1 v1 :
  truthy (open p0) = false → truthy (open p1) = true →
  highlightedIndexOf p0 ≠ highlightedIndexOf p1 →
  highlightedIndexOf p1 ≠ -1 →
  (∀ row, row ∈ virtualItems v1 → Z.of_nat (index row) ≠ highlightedIndexOf p1) →
  ∃ rest,
    (snd <$> calls (VirtualOptionsList (after (history ++ [(p0, v0)])) p1 v1))
    = ScrollToIndex (highlightedIndexOf p1) (Some AlignEnd)
      :: ScrollToIndex (highlightedIndexOf p1) (Some AlignEnd) :: rest.
Proof.
  intros Hclosed Hopen Hchanged Hsome Hhidden. rewrite calls_render.
  rewrite openCalls_transition; [| |done].
  - unfold highlightedCalls.
    rewrite after_snoc, depsHighlighted_commit, depsChanged_diff by done.
    rewrite highlightedEffect_hidden by done. simpl. eauto.
  - exists (open p0). by rewrite after_snoc, depsOpen_commit.
Qed.

Lemma open_and_follow_scroll_twice_witness :
  ∃ rest,
    (snd <$> calls (VirtualOptionsList (after ([] ++ [(sampleProps 0 false, rowsUpTo 2)]))
                      (sampleProps 2 true) (rowsUpTo 2)))
    = ScrollToIndex 2 (Some AlignEnd) :: ScrollToIndex 2 (Some AlignEnd) :: rest.
Proof.
  apply (open_and_follow_scroll_twice [] (sampleProps 0 false) (rowsUpTo 2)
           (sampleProps 2 true) (rowsUpTo 2)); [done..|].
  intros row Hrow. vm_compute in Hrow. simpl.
  apply list_elem_of_In in Hrow as [<-|[<-|[]]]; done.
Defined.

(** *** Groups that start at the same flat position *)

Section Groups.
Local Open Scope nat_scope.

(** A key that is set stays set, with a group index that never decreases. *)
Lemma reduceFrom_keeps (l : list OptionsItem) i cur (acc : gmap nat nat) k j0 :
  acc !! k = Some j0 →
  ∃ j, (reduceFrom groupStartStep l i (cur, acc)).2 !! k = Some j ∧ (j = j0 ∨ i ≤ j).
Proof.
  revert i cur acc j0. induction l as [|item l IH]; intros i cur acc j0 Hk.
  - exists j0. auto.
  - destruct item as [o|g]; simpl.
    + destruct (IH (S i) (cur + 1) acc j0 Hk) as (j & Hj & Hle).
      exists j. split; [done | lia].
    + destruct (decide (cur = k)) as [->|Hne].
      * destruct (IH (S i) (k + length (groupOptions g)) (<[k:=i]> acc) i) as (j & Hj & Hle);
          [apply lookup_insert_eq|].
        exists j. split; [done | lia].
      * destruct (IH (S i) (cur + length (groupOptions g)) (<[cur:=i]> acc) j0)
          as (j & Hj & Hle); [by rewrite lookup_insert_ne|].
        exists j. split; [done | lia].
Qed.

(** Every group is recorded at its flat position, by itself or by a later
    group. *)
Lemma reduceFrom_recorded (l : list OptionsItem) i cur (acc : gmap nat nat) n g :
  l !! n = Some (ItemGroup g) →
  ∃ j, (reduceFrom groupStartStep l i (cur, acc)).2 !! (cur + flatPosition l n) = Some j
       ∧ i + n ≤ j.
Proof.
  unfold flatPosition.
  revert i cur acc n. induction l as [|item l IH]; intros i cur acc n Hn; [done|].
  destruct n as [|n]; simpl in Hn.
  - injection Hn as ->. simpl. rewrite Nat.add_0_r.
    destruct (reduceFrom_keeps l (S i) (cur + length (groupOptions g)) (<[cur:=i]> acc)
                cur i) as (j & Hj & Hle); [apply lookup_insert_eq|].
    exists j. split; [done | lia].
  - rewrite firstn_cons, flatten_cons, length_app.
    destruct item as [o|g']; simpl.
    + destruct (IH (S i) (cur + 1) acc n Hn) as (j & Hj & Hle).
      exists j. split; [|lia].
      by replace (cur + S (length (flatten (take n l))))
        with (cur + 1 + length (flatten (take n l))) by lia.
    + destruct (IH (S i) (cur + length (groupOptions g')) (<[cur:=i]> acc) n Hn)
        as (j & Hj & Hle).
      exists j. split; [|lia]. by rewrite Nat.add_assoc.
Qed.

(** X4.  When several groups start at the same flat position, which
    happens when a group without options is directly followed by another
    group, the map holds the last of them; the header of the empty group is
    then never rendered. *)
Theorem last_group_at_a_position_wins (options : list OptionsItem) (k j j' : nat) g' :
  groupStartIndexes options !! k = Some j →
  options !! j' = Some (ItemGroup g') →
  flatPosition options j' = k →
  j' ≤ j.
Proof.
  intros Hk Hj' <-.
  destruct (reduceFrom_recorded options 0 0 ∅ j' g' Hj') as (j'' & Hj'' & Hle).
  unfold groupStartIndexes in Hk. simpl in Hj''. rewrite Hk in Hj''.
  injection Hj'' as ->. lia.
Qed.

Lemma last_group_at_a_position_wins_witness :
  groupStartIndexes [ItemGroup emptyGroup; ItemGroup groupG] !! 0 = Some 1
  ∧ 0 ≤ 1.
Proof.
  split; [reflexivity|].
  apply (last_group_at_a_position_wins [ItemGroup emptyGroup; ItemGroup groupG] 0 1 0
           emptyGroup); reflexivity.
Defined.

(** X5.  The map is empty exactly when [options] holds no group; every
    group, also one without options, leaves an entry at its flat
    position. *)
Theorem group_start_map_empty_iff (options : list OptionsItem) :
  (groupStartIndexes options = ∅ ↔ ∀ item, item ∈ options → isGroup item = false)
  ∧ (∀ j g, options !! j = Some (ItemGroup g) →
       is_Some (groupStartIndexes options !! flatPosition options j)).
Proof.
  assert (∀ j g, options !! j = Some (ItemGroup g) →
            is_Some (groupStartIndexes options !! flatPosition options j)) as Hrecorded.
  { intros j g Hj.
    destruct (reduceFrom_recorded options 0 0 ∅ j g Hj) as (j' & Hj' & _). by exists j'. }
  split; [|done]. split.
  - intros Hempty item [j Hj]%list_elem_of_lookup.
    destruct item as [o|g]; [done|].
    destruct (Hrecorded j g Hj) as [j' Hj']. by rewrite Hempty, lookup_empty in Hj'.
  - intros Hnone. apply map_eq. intros k. rewrite lookup_empty.
    destruct (groupStartIndexes options !! k) as [j|] eqn:Hk; [|done].
    apply groupStartIndexes_lookup in Hk as (g & Hj & _).
    apply list_elem_of_lookup_2, Hnone in Hj. done.
Qed.

Lemma group_start_map_empty_iff_witness :
  is_Some (groupStartIndexes [ItemOption optZ; ItemGroup emptyGroup] !! 1).
Proof.
  apply (group_start_map_empty_iff [ItemOption optZ; ItemGroup emptyGroup]) with (j := 1)
                                                                                (g := emptyGroup).
  reflexivity.
Defined.

(** *** The memoised map under arrays that are never changed in place *)

Lemma arrayContents_optionsOf store h p :
  (∀ id l, options p = Some (id, l) → l = store id) →
  arrayContents store (optionsOf h p).1 = (optionsOf h p).2.
Proof.
  intros Hp. unfold optionsOf. destruct (options p) as [[id l]|]; simpl; [|done].
  symmetry. by apply Hp.
Qed.

Lemma memoInSync_commit store h p :
  memoInSync store h →
  (∀ id l, options p = Some (id, l) → l = store id) →
  (useMemo (memoGroupStartIndexes h) (optionsOf h p).1
     (λ _, groupStartIndexes (optionsOf h p).2)).1
  = groupStartIndexes (optionsOf h p).2.
Proof.
  intros Hsync Hp. unfold useMemo.
  destruct (memoGroupStartIndexes h) as [[id m]|] eqn:Hmemo; [|done].
  case_bool_decide as Hid; [|done]. simpl.
  rewrite (Hsync id m Hmemo), Hid. by rewrite arrayContents_optionsOf.
Qed.

Lemma memoInSync_after store history :
  immutableOptions store history → memoInSync store (after history).
Proof.
  induction history as [|[p v] history IH] using rev_ind; intros Himm; [by intros ? ? [=]|].
  assert (immutableOptions store history) as Himm'.
  { intros q w id l Hin. apply (Himm q w). apply elem_of_app. by left. }
  assert (∀ id l, options p = Some (id, l) → l = store id) as Hp.
  { intros id l. apply (Himm p v). apply elem_of_app. right. by apply list_elem_of_singleton. }
  rewrite after_snoc. intros id m.
  destruct (memo_commit (after history) p v) as [-> _].
  rewrite (memoInSync_commit store) by auto. intros [= <- <-].
  by rewrite arrayContents_optionsOf.
Qed.

(** X6.  While the caller never changes an [options] array in place, the
    memoised map is never stale: after every render it is the group-start
    map of the options of that render. *)
Theorem memo_never_stale store history p v :
  immutableOptions store (history ++ [(p, v)]) →
  memoGroupStartIndexes (after (history ++ [(p, v)]))
  = Some ((optionsOf (after history) p).1,
          groupStartIndexes (optionsOf (after history) p).2).
Proof.
  intros Himm. rewrite after_snoc.
  destruct (memo_commit (after history) p v) as [-> _].
  rewrite (memoInSync_commit store); [done | |].
  - apply memoInSync_after. intros q w id l Hin. apply (Himm q w).
    apply elem_of_app. by left.
  - intros id l. apply (Himm p v). apply elem_of_app. right.
    by apply list_elem_of_singleton.
Qed.

Lemma memo_never_stale_witness :
  memoGroupStartIndexes
    (after ([(sampleOf 0 [ItemOption optZ; ItemGroup groupG] 0 true, rowsUpTo 3)]
            ++ [(sampleOf 0 [ItemOption optZ; ItemGroup groupG] 1 true, rowsUpTo 3)]))
  = Some (CallerArray 0, groupStartIndexes [ItemOption optZ; ItemGroup groupG]).
Proof.
  apply (memo_never_stale (λ _, [ItemOption optZ; ItemGroup groupG])
           [(sampleOf 0 [ItemOption optZ; ItemGroup groupG] 0 true, rowsUpTo 3)]
           (sampleOf 0 [ItemOption optZ; ItemGroup groupG] 1 true) (rowsUpTo 3)).
  intros q w id l Hin Hq. simpl in Hin.
  apply elem_of_cons in Hin as [[= -> ->]|Hin];
    [|apply list_elem_of_singleton in Hin as [= -> ->]];
    simpl in Hq; by injection Hq as <- <-.
Defined.

(** *** Rows *)

Lemma rows_lookup h p v n vr :
  virtualItems v !! n = Some vr →
  ∃ rows,
    children (VirtualOptionsList h p v)
    = [Inner (totalSize v) rows; placeholderSlot (emptyPlaceholder p) (optionsOf h p).2]
    ∧ length rows = length (virtualItems v)
    ∧ rows !! n
      = Some (renderRow (flatOptionsOf p) (optionsOf h p).2
                (useMemo (memoGroupStartIndexes h) (optionsOf h p).1
                   (λ _, groupStartIndexes (optionsOf h p).2)).1
                (highlightedIndexOf p) vr).
Proof.
  intros Hn. rewrite children_render. eexists. split; [done|].
  split; [by rewrite length_fmap|]. by rewrite list_lookup_fmap, Hn.
Qed.

(** X7.  While the caller never changes an [options] array in place and
    passes its flattening as [flatOptions], the row of the first member of
    every group shows the header with that group's label above the member,
    and a row at whose flat position no group starts shows the option
    alone. *)
Theorem group_headers_rendered store history p v id opts n vr :
  immutableOptions store (history ++ [(p, v)]) →
  options p = Some (id, opts) →
  flatOptions p = Some (flatten opts) →
  virtualItems v !! n = Some vr →
  ∃ rows,
    children (VirtualOptionsList (after history) p v)
    = [Inner (totalSize v) rows; placeholderSlot (emptyPlaceholder p) opts]
    ∧ (∀ j g o,
         opts !! j = Some (ItemGroup g) → head (groupOptions g) = Some o →
         index vr = flatPosition opts j →
         rows !! n
         = Some (Some {| rowKey := index vr;
                         rowHighlighted :=
                           bool_decide (highlightedIndexOf p = Z.of_nat (index vr));
                         rowTranslateY := start vr;
                         rowChildren := [OptgroupElement (label g);
                                         OptionElement o (index vr)] |}))
    ∧ (∀ o,
         flatten opts !! index vr = Some o →
         (∀ j g, opts !! j = Some (ItemGroup g) → flatPosition opts j ≠ index vr) →
         rows !! n
         = Some (Some {| rowKey := index vr;
                         rowHighlighted :=
                           bool_decide (highlightedIndexOf p = Z.of_nat (index vr));
                         rowTranslateY := start vr;
                         rowChildren := [OptionElement o (index vr)] |})).
Proof.
  intros Himm Hopts Hflat Hn.
  destruct (rows_lookup (after history) p v n vr Hn) as (rows & Hchildren & _ & Hrow).
  assert ((optionsOf (after history) p).2 = opts) as Hopts'
    by (unfold optionsOf; by rewrite Hopts).
  rewrite (memoInSync_commit store) in Hrow.
  - rewrite Hopts' in *. unfold flatOptionsOf in Hrow. rewrite Hflat in Hrow. simpl in Hrow.
    exists rows. split; [done|]. split.
    + intros j g o Hj Ho Hindex. rewrite Hrow. unfold renderRow.
      rewrite Hindex. unfold flatPosition.
      rewrite (flatten_lookup_first opts j g o Hj Ho). simpl.
      assert (groupStartIndexes opts !! length (flatten (take j opts)) = Some j) as ->.
      { apply (reduceFrom_nonempty opts 0 0 ∅ j g Hj). by destruct (groupOptions g). }
      simpl. by rewrite Hj.
    + intros o Ho Hnogroup. rewrite Hrow. unfold renderRow. rewrite Ho. simpl.
      destruct (groupStartIndexes opts !! index vr) as [j|] eqn:Hk; [|done].
      apply groupStartIndexes_lookup in Hk as (g & Hj & Hk).
      by destruct (Hnogroup j g Hj).
  - apply memoInSync_after. intros q w id' l Hin. apply (Himm q w).
    apply elem_of_app. by left.
  - intros id' l. apply (Himm p v). apply elem_of_app. right.
    by apply list_elem_of_singleton.
Qed.

Lemma group_headers_rendered_witness :
  ∃ rows,
    children (VirtualOptionsList (after [])
                (sampleOf 0 [ItemOption optZ; ItemGroup groupG] 0 true) (rowsUpTo 3))
    = [Inner 120 rows; Value None]
    ∧ rows !! 1
      = Some (Some {| rowKey := 1; rowHighlighted := false; rowTranslateY := 40;
                      rowChildren := [OptgroupElement (Some "G"%string);
                                      OptionElement optX 1] |}).
Proof.
  destruct (group_headers_rendered (λ _, [ItemOption optZ; ItemGroup groupG]) []
              (sampleOf 0 [ItemOption optZ; ItemGroup groupG] 0 true) (rowsUpTo 3)
              0 [ItemOption optZ; ItemGroup groupG] 1 {| index := 1; start := 40 |})
    as (rows & Hchildren & Hheader & _); [|reflexivity..|].
  - intros q w id l Hin Hq. simpl in Hin.
    apply list_elem_of_singleton in Hin as [= -> ->]. simpl in Hq. by injection Hq as <- <-.
  - exists rows. split; [done|].
    apply (Hheader 1 groupG optX); reflexivity.
Defined.

(** X8.  The rows mirror the virtual rows one to one and in order.  A row
    whose index lies within [flatOptions] is keyed by that index, placed at
    the row's [start], ends with the option of that index, and carries the
    highlight exactly when its index is the highlighted index, so no row is
    highlighted for [-1]. *)
Theorem rows_mirror_virtual_rows h p v :
  ∃ rows,
    children (VirtualOptionsList h p v)
    = [Inner (totalSize v) rows; placeholderSlot (emptyPlaceholder p) (optionsOf h p).2]
    ∧ length rows = length (virtualItems v)
    ∧ (∀ n vr o,
         virtualItems v !! n = Some vr → flatOptionsOf p !! index vr = Some o →
         ∃ row, rows !! n = Some (Some row)
                ∧ rowKey row = index vr ∧ rowTranslateY row = start vr
                ∧ last (rowChildren row) = Some (OptionElement o (index vr))
                ∧ (rowHighlighted row = true
                   ↔ highlightedIndexOf p = Z.of_nat (index vr)))
    ∧ (highlightedIndexOf p = (-1)%Z →
       ∀ n row, rows !! n = Some (Some row) → rowHighlighted row = false).
Proof.
  exists (renderRow (flatOptionsOf p) (optionsOf h p).2
            (useMemo (memoGroupStartIndexes h) (optionsOf h p).1
               (λ _, groupStartIndexes (optionsOf h p).2)).1
            (highlightedIndexOf p) <$> virtualItems v).
  split; [apply children_render|]. split; [by rewrite length_fmap|]. split.
  - intros n vr o Hn Ho. rewrite list_lookup_fmap, Hn. simpl.
    unfold renderRow. rewrite Ho. simpl. eexists. split; [done|]. simpl.
    repeat split; [| |].
    + by rewrite last_snoc.
    + by intros ?%bool_decide_eq_true.
    + intros ?. by apply bool_decide_eq_true.
  - intros Hnone n row. rewrite list_lookup_fmap.
    destruct (virtualItems v !! n) as [vr|]; [|done]. simpl.
    unfold renderRow. destruct (flatOptionsOf p !! index vr); [|done]. simpl.
    intros [= <-]. simpl. rewrite Hnone. apply bool_decide_eq_false. lia.
Qed.

Lemma rows_mirror_virtual_rows_witness :
  ∃ rows,
    children (VirtualOptionsList mount (sampleProps (-1) true) (rowsUpTo 3))
    = [Inner 120 rows; Value None]
    ∧ ∀ n row, rows !! n = Some (Some row) → rowHighlighted row = false.
Proof.
  destruct (rows_mirror_virtual_rows mount (sampleProps (-1) true) (rowsUpTo 3))
    as (rows & Hchildren & _ & _ & Hnone).
  exists rows. split; [done|]. by apply Hnone.
Defined.

End Groups.

End VirtualOptionsListMore.

(** ** Popover: observers, recomputation and style *)
Module PopoverMore.
Import React ReactFacts Popover PopoverFacts.

(** *** Which effect an event comes from *)

Lemma storeUpdate_events update updatePopper (cells : gmap nat nat) ev :
  ev ∈ (storeUpdate update updatePopper cells).2 → ∃ r fn, ev = Assign r fn.
Proof.
  unfold storeUpdate. destruct update as [u|], updatePopper as [fn|]; simpl;
    try by intros ?%elem_of_nil.
  destruct (cells !! u); simpl; [by intros ?%elem_of_nil|].
  intros ->%list_elem_of_singleton. eauto.
Qed.

Lemma events_render mounted cells p env :
  events (Popover mounted cells p env)
  = (if depsChanged (depsReference <$> mounted) (anchorElement p)
     then [SetReferenceElement (anchorElement p)] else [])
    ++ (if depsChanged (depsRecompute <$> mounted)
             (updatePopper env, arrowElement env, children p)
        then match updatePopper env with
             | Some fn => [Invoke fn]
             | None => []
             end
        else [])
    ++ (storeUpdate (update p) (updatePopper env) cells).2
    ++ (observerEffect mounted
          (anchorElement p, update p,
           {| cbUseAnchorWidth := useAnchorWidth p; cbUpdate := update p |})).2.
Proof. done. Qed.

Lemma count_app f evs1 evs2 : count f (evs1 ++ evs2) = count f evs1 + count f evs2.
Proof. unfold count. by rewrite List.filter_app, length_app. Qed.

Lemma count_storeUpdate f update updatePopper (cells : gmap nat nat) :
  (∀ r fn, f (Assign r fn) = false) →
  count f (storeUpdate update updatePopper cells).2 = 0.
Proof.
  intros Hf. unfold storeUpdate. destruct update as [u|], updatePopper as [fn|]; try done.
  destruct (cells !! u); [done|]. unfold count. simpl. by rewrite Hf.
Qed.

(** The observers a commit makes and disconnects. *)
Lemma count_observers mounted cells p env :
  let evs := events (Popover mounted cells p env) in
  count isNewObserver evs + (if mounted is Some _ then 1 else 0) = count isDisconnect evs + 1.
Proof.
  intros evs. subst evs. rewrite events_render, !count_app.
  rewrite !count_storeUpdate by done.
  assert (∀ f b (ev : Event), f ev = false → count f (if b : bool then [ev] else []) = 0)
    as Hone.
  { intros f [] ev Hev; unfold count; simpl; by rewrite ?Hev. }
  rewrite !Hone by done.
  assert (∀ f b, (∀ fn, f (Invoke fn) = false) →
            count f (if b : bool then match updatePopper env with
                                     | Some fn => [Invoke fn]
                                     | None => []
                                     end else []) = 0) as Hinvoke.
  { intros f [] Hf; [|done]. destruct (updatePopper env); [|done].
    unfold count. simpl. by rewrite Hf. }
  rewrite !Hinvoke by done. simpl.
  unfold observerEffect, observeAnchor.
  destruct mounted as [h|]; [destruct (depsChanged (Some (depsObserver h)) _)|]; simpl;
    by destruct (anchorElement p).
Qed.

Lemma run_balance st history :
  count isNewObserver (run st history) + (if st.1 is Some _ then 1 else 0)
  = count isDisconnect (run st history) + (if (fold_left step history st).1 is Some _ then 1 else 0).
Proof.
  revert st. induction history as [|pe history IH]; intros st; [done|].
  cbn [run fold_left]. rewrite !count_app.
  pose proof (count_observers st.1 st.2 pe.1 pe.2) as Hcommit. cbv zeta in Hcommit.
  specialize (IH (step st pe)). simpl in IH. lia.
Qed.

Lemma existsb_isNewObserver_app evs1 evs2 :
  existsb isNewObserver (evs1 ++ evs2)
  = existsb isNewObserver evs1 || existsb isNewObserver evs2.
Proof. apply existsb_app. Qed.

(** What one commit disconnects and makes. *)
Lemma commit_observers mounted cells p env :
  let r := Popover mounted cells p env in
  disconnectedObservers (events r) ++ [observer (hooks r)]
  = (if mounted is Some h then [observer h] else [])
    ++ (if existsb isNewObserver (events r) then [observer (hooks r)] else [])
  ∧ count isNewObserver (events r)
    = length (if existsb isNewObserver (events r) then [observer (hooks r)] else []).
Proof.
  intros r. subst r.
  change (observer (hooks (Popover mounted cells p env)))
    with (observerEffect mounted
            (anchorElement p, update p,
             {| cbUseAnchorWidth := useAnchorWidth p; cbUpdate := update p |})).1.
  rewrite events_render.
  unfold disconnectedObservers, count, storeUpdate, observerEffect, observeAnchor.
  destruct (depsChanged (depsReference <$> mounted) (anchorElement p)),
    (depsChanged (depsRecompute <$> mounted)
       (updatePopper env, arrowElement env, children p)),
    (updatePopper env) as [fn|], (update p) as [u|]; try destruct (cells !! u);
    (destruct mounted as [h|]; [destruct (depsChanged (Some (depsObserver h)) _)|]);
    by destruct (anchorElement p).
Qed.

Lemma run_observers st history :
  disconnectedObservers (run st history)
  ++ (if (fold_left step history st).1 is Some h then [observer h] else [])
  = (if st.1 is Some h then [observer h] else []) ++ madeObservers st history
  ∧ count isNewObserver (run st history) = length (madeObservers st history).
Proof.
  revert st. induction history as [|pe history IH]; intros st.
  - simpl. by rewrite app_nil_r.
  - cbn [run fold_left madeObservers]. unfold disconnectedObservers in *.
    rewrite omap_app, count_app, length_app.
    destruct (commit_observers st.1 st.2 pe.1 pe.2) as [Hcommit Hcount].
    cbv zeta in Hcommit, Hcount. unfold disconnectedObservers in Hcommit.
    destruct (IH (step st pe)) as [Hrest Hcount']. cbn [step fst] in Hrest.
    split; [|by rewrite Hcount, Hcount'].
    rewrite <- app_assoc, Hrest, !app_assoc. by rewrite Hcommit.
Qed.

(** X9.  Over the whole life of an instance every observer that was made is
    disconnected exactly once: the observers disconnected by the renders
    and the unmount are, in order, the very observers the renders made, one
    for every [new ResizeObserver]; before the unmount all but the live one
    have been disconnected, so one more has been made than disconnected. *)
Theorem observers_are_released cells history h :
  (after cells history).1 = Some h →
  count isNewObserver (run (None, cells) history)
  = count isDisconnect (run (None, cells) history) + 1
  ∧ count isNewObserver (run (None, cells) history ++ unmount h)
    = count isDisconnect (run (None, cells) history ++ unmount h)
  ∧ disconnectedObservers (run (None, cells) history ++ unmount h)
    = madeObservers (None, cells) history
  ∧ disconnectedObservers (run (None, cells) history) ++ [observer h]
    = madeObservers (None, cells) history
  ∧ count isNewObserver (run (None, cells) history)
    = length (madeObservers (None, cells) history).
Proof.
  intros Hh. pose proof (run_balance (None, cells) history) as Hbalance.
  fold (after cells history) in Hbalance. rewrite Hh in Hbalance. simpl in Hbalance.
  destruct (run_observers (None, cells) history) as [Hobservers Hmade].
  fold (after cells history) in Hobservers. rewrite Hh in Hobservers.
  simpl in Hobservers.
  split; [lia|]. split; [|split; [|done]].
  - rewrite !count_app.
    change (count isNewObserver (unmount h)) with 0.
    change (count isDisconnect (unmount h)) with 1. lia.
  - unfold disconnectedObservers in *. by rewrite omap_app.
Qed.

Lemma observers_are_released_witness :
  disconnectedObservers
    (run (None, ∅) [(sampleProps (Some anchorA) true None, sampleEnv None 100);
                    (sampleProps (Some anchorB) true None, sampleEnv None 100)]
     ++ unmount (hooks (Popover
                          (after ∅ [(sampleProps (Some anchorA) true None,
                                     sampleEnv None 100)]).1
                          ∅ (sampleProps (Some anchorB) true None) (sampleEnv None 100))))
  = [ {| callback := {| cbUseAnchorWidth := Some true; cbUpdate := None |};
         observed := [anchorA] |};
      {| callback := {| cbUseAnchorWidth := Some true; cbUpdate := None |};
         observed := [anchorB] |} ].
Proof.
  destruct (observers_are_released ∅
              [(sampleProps (Some anchorA) true None, sampleEnv None 100);
               (sampleProps (Some anchorB) true None, sampleEnv None 100)]
              (hooks (Popover
                        (after ∅ [(sampleProps (Some anchorA) true None, sampleEnv None 100)]).1
                        ∅ (sampleProps (Some anchorB) true None) (sampleEnv None 100))))
    as (_ & _ & Hreleased & _); [reflexivity|].
  rewrite Hreleased. reflexivity.
Defined.

(** X10.  A later render makes a new observer exactly when [anchorElement],
    the [update] ref or [useAnchorWidth] differs from the render before:
    then the live observer is disconnected and a new one is made (watching
    the anchor, if any); otherwise the observer is left alone. *)
Theorem observer_resubscribes_iff mounted cells p env cells' p' env' :
  let h := hooks (Popover mounted cells p env) in
  let r' := Popover (Some h) cells' p' env' in
  let same := anchorElement p' = anchorElement p ∧ update p' = update p
              ∧ useAnchorWidth p' = useAnchorWidth p in
  (same →
   observer (hooks r') = observer h
   ∧ ∀ ev, ev ∈ events r' →
       isNewObserver ev = false ∧ isDisconnect ev = false ∧ ∀ e, ev ≠ Observe e)
  ∧ (¬ same →
     Disconnect (observer h) ∈ events r'
     ∧ NewObserver {| cbUseAnchorWidth := useAnchorWidth p'; cbUpdate := update p' |}
         ∈ events r'
     ∧ observed (observer (hooks r')) = match anchorElement p' with
                                        | Some e => [e]
                                        | None => []
                                        end
     ∧ ∀ e, anchorElement p' = Some e → Observe e ∈ events r').
Proof.
  intros h r' same. subst r'. rewrite events_render.
  change (observer (hooks (Popover (Some h) cells' p' env')))
    with (observerEffect (Some h)
            (anchorElement p', update p',
             {| cbUseAnchorWidth := useAnchorWidth p'; cbUpdate := update p' |})).1.
  unfold observerEffect.
  change (depsObserver h)
    with (anchorElement p, update p,
          {| cbUseAnchorWidth := useAnchorWidth p; cbUpdate := update p |}).
  split.
  - intros (Ha & Hu & Hw). rewrite Ha, Hu, Hw, depsChanged_same. split; [done|].
    intros ev. rewrite !elem_of_app, elem_of_nil.
    intros [Hev|[Hev|[Hev|[]]]].
    + destruct (depsChanged _ _); [|by apply elem_of_nil in Hev].
      by apply list_elem_of_singleton in Hev as ->.
    + destruct (depsChanged _ _), (updatePopper env'); try by apply elem_of_nil in Hev.
      by apply list_elem_of_singleton in Hev as ->.
    + by apply storeUpdate_events in Hev as (r & fn & ->).
  - intros Hdiff. rewrite depsChanged_diff.
    + cbn [fst snd]. unfold observeAnchor. rewrite !elem_of_app.
      destruct (anchorElement p') as [e|]; cbn [fst snd observed];
        rewrite !elem_of_cons; repeat split; auto 10.
      * intros e' [= ->]. rewrite !elem_of_app, !elem_of_cons. auto 10.
      * intros e' [=].
    + intros [= Ha Hu Hw]. apply Hdiff. done.
Qed.

Lemma observer_resubscribes_iff_witness :
  Disconnect (observer (hooks (Popover None ∅ (sampleProps (Some anchorA) false None)
                                 (sampleEnv None 100))))
    ∈ events (Popover
                (Some (hooks (Popover None ∅ (sampleProps (Some anchorA) false None)
                                (sampleEnv None 100))))
                ∅ (sampleProps (Some anchorA) true None) (sampleEnv None 100)).
Proof.
  apply (observer_resubscribes_iff None ∅ (sampleProps (Some anchorA) false None)
           (sampleEnv None 100) ∅ (sampleProps (Some anchorA) true None)
           (sampleEnv None 100)).
  intros (_ & _ & Hwidth). discriminate Hwidth.
Defined.

(** X11.  A commit asks the engine to recompute exactly when the engine
    has handed back a function and either this is the first render or the
    function, the arrow element or the children differ from the render
    before; no other effect of a render calls the engine. *)
Theorem engine_recomputes_on_change mounted cells p env cells' p' env' fn :
  let h := hooks (Popover mounted cells p env) in
  (Invoke fn ∈ events (Popover None cells p env) ↔ updatePopper env = Some fn)
  ∧ (Invoke fn ∈ events (Popover (Some h) cells' p' env')
     ↔ updatePopper env' = Some fn
       ∧ (updatePopper env' ≠ updatePopper env ∨ arrowElement env' ≠ arrowElement env
          ∨ children p' ≠ children p)).
Proof.
  intros h.
  assert (∀ mounted cells p env,
            Invoke fn ∈ events (Popover mounted cells p env)
            ↔ updatePopper env = Some fn
              ∧ depsChanged (depsRecompute <$> mounted)
                  (updatePopper env, arrowElement env, children p) = true) as Hinvoke.
  { clear. intros mounted cells p env. rewrite events_render, !elem_of_app. split.
    - intros [Hev|[Hev|[Hev|Hev]]].
      + destruct (depsChanged _ _); [|by apply elem_of_nil in Hev].
        by apply list_elem_of_singleton in Hev.
      + destruct (depsChanged (depsRecompute <$> mounted) _); [|by apply elem_of_nil in Hev].
        destruct (updatePopper env); [|by apply elem_of_nil in Hev].
        by apply list_elem_of_singleton in Hev as [= ->].
      + by apply storeUpdate_events in Hev as (r & fn' & [=]).
      + by apply observerEffect_events in Hev as [[cb [=]]|[[e [=]]|[o [=]]]].
    - intros [-> ->]. right. left. by apply list_elem_of_singleton. }
  split.
  - rewrite Hinvoke. simpl. tauto.
  - rewrite Hinvoke. simpl.
    change (depsRecompute h) with (updatePopper env, arrowElement env, children p).
    rewrite bool_decide_eq_true. split.
    + intros [Hfn Hdeps]. split; [done|].
      destruct (decide (updatePopper env' = updatePopper env)) as [Hu|]; [|tauto].
      destruct (decide (arrowElement env' = arrowElement env)) as [Ha|]; [|tauto].
      destruct (decide (children p' = children p)) as [Hc|]; [|tauto].
      destruct Hdeps. by rewrite Hu, Ha, Hc.
    + intros [Hfn Hdiff]. split; [done|]. intros [= Hu Ha Hc].
      destruct Hdiff as [?|[?|?]]; congruence.
Qed.

Lemma engine_recomputes_on_change_witness :
  Invoke 7 ∈ events (Popover None ∅ (sampleProps (Some anchorA) true None)
                       (sampleEnv (Some 7) 100)).
Proof.
  apply (engine_recomputes_on_change None ∅ (sampleProps (Some anchorA) true None)
           (sampleEnv (Some 7) 100) ∅ (sampleProps (Some anchorA) true None)
           (sampleEnv (Some 7) 100) 7).
  reflexivity.
Defined.

(** *** The reference element and the style of the panel *)

(** X12.  After every commit the [referenceElement] state is the anchor of
    that render, and [setReferenceElement] is called only on the first
    render or when the state is not yet that anchor. *)
Theorem reference_element_follows_anchor cells history p env :
  let st := after cells history in
  let r := Popover st.1 st.2 p env in
  referenceElement (hooks r) = anchorElement p
  ∧ ∀ e, SetReferenceElement e ∈ events r
         ↔ e = anchorElement p
           ∧ (st.1 = None ∨ ∃ h, st.1 = Some h ∧ referenceElement h ≠ anchorElement p).
Proof.
  intros st r. subst r. split; [apply referenceElement_commit|].
  intros e. rewrite events_render, !elem_of_app.
  assert (depsChanged (depsReference <$> st.1) (anchorElement p) = true
          ↔ st.1 = None ∨ ∃ h, st.1 = Some h ∧ referenceElement h ≠ anchorElement p)
    as Hchanged.
  { destruct st.1 as [h|] eqn:Hst; simpl; [|split; auto].
    destruct (consistent_after cells history h Hst) as [_ Href].
    rewrite bool_decide_eq_true, <- Href. split.
    - intros ?. right. by exists h.
    - by intros [[=]|(h' & [= <-] & ?)]. }
  split.
  - intros [Hev|[Hev|[Hev|Hev]]].
    + destruct (depsChanged (depsReference <$> st.1) _) eqn:Hdeps;
        [|by apply elem_of_nil in Hev].
      apply list_elem_of_singleton in Hev as [= ->]. split; [done|]. by apply Hchanged.
    + destruct (depsChanged (depsRecompute <$> st.1) _), (updatePopper env);
        try by apply elem_of_nil in Hev.
      by apply list_elem_of_singleton in Hev.
    + by apply storeUpdate_events in Hev as (u & fn & [=]).
    + by apply observerEffect_events in Hev as [[cb [=]]|[[e' [=]]|[o [=]]]].
  - intros [-> Hdeps%Hchanged]. left. rewrite Hdeps. by apply list_elem_of_singleton.
Qed.

Lemma reference_element_follows_anchor_witness :
  SetReferenceElement (Some anchorB)
    ∈ events (Popover
                (after ∅ [(sampleProps (Some anchorA) true None, sampleEnv None 100)]).1
                (after ∅ [(sampleProps (Some anchorA) true None, sampleEnv None 100)]).2
                (sampleProps (Some anchorB) true None) (sampleEnv None 100)).
Proof.
  apply (reference_element_follows_anchor ∅
           [(sampleProps (Some anchorA) true None, sampleEnv None 100)]
           (sampleProps (Some anchorB) true None) (sampleEnv None 100)).
  split; [reflexivity|]. right. eexists. split; [reflexivity|]. discriminate.
Defined.

(** X13.  In the style of the panel every property the engine sets wins,
    also over [zIndex] and [width]; where the engine sets none, [zIndex] is
    the computed z-index, [width] is the width of the reference element
    when [useAnchorWidth] is enabled and there is such an element and is
    absent otherwise, and no further property is added. *)
Theorem panel_style_precedence p referenceElement env :
  let style := panelStyle p referenceElement env in
  (∀ k v, popperStyles env !! k = Some v → style !! k = Some v)
  ∧ (popperStyles env !! "zIndex"%string = None →
     style !! "zIndex"%string = Some (Number (computedZIndex env)))
  ∧ (popperStyles env !! "width"%string = None →
     style !! "width"%string
     = if truthy (useAnchorWidth p)
       then (λ e, Number (offsetWidth env e)) <$> referenceElement
       else None)
  ∧ (∀ k, k ≠ "zIndex"%string → k ≠ "width"%string →
          style !! k = popperStyles env !! k).
Proof.
  intros style. subst style. unfold panelStyle.
  set (width := if truthy (useAnchorWidth p)
                then (λ e, Number (offsetWidth env e)) <$> referenceElement else None).
  split; [|split; [|split]].
  - intros k v Hk. by apply lookup_union_Some_l.
  - intros Hk. rewrite lookup_union_r by done.
    destruct width; simpl; [rewrite lookup_insert_ne by done|]; apply lookup_singleton_eq.
  - intros Hk. rewrite lookup_union_r by done.
    destruct width; simpl; [apply lookup_insert_eq|]. by apply lookup_singleton_ne.
  - intros k Hz Hw. destruct (popperStyles env !! k) as [v|] eqn:Hk.
    + by apply lookup_union_Some_l.
    + rewrite lookup_union_r by done.
      destruct width; simpl; [rewrite lookup_insert_ne by done|];
        by apply lookup_singleton_ne.
Qed.

Lemma panel_style_precedence_witness :
  panelStyle (sampleProps (Some anchorA) true None) (Some anchorA) (sampleEnv None 100)
    !! "position"%string = Some (Text "absolute")
  ∧ panelStyle (sampleProps (Some anchorA) true None) (Some anchorA) (sampleEnv None 100)
      !! "zIndex"%string = Some (Number 50).
Proof.
  destruct (panel_style_precedence (sampleProps (Some anchorA) true None) (Some anchorA)
              (sampleEnv None 100)) as (Hengine & Hz & _).
  split; [by apply Hengine | by apply Hz].
Defined.

(** *** The handle a resize invokes *)

(** X14.  Once the first render has stored the engine's function in the
    caller's empty [update] ref, a size change of the anchor observed after
    any number of later renders invokes that first function, whatever
    functions the engine has handed back since. *)
Theorem resize_invokes_first_stored_function cells p0 env0 rest p env u fn e :
  update p0 = Some u → cells !! u = None → updatePopper env0 = Some fn →
  update p = Some u → anchorElement p = Some e → truthy (useAnchorWidth p) = true →
  let st := after cells ((p0, env0) :: rest) in
  let r := Popover st.1 st.2 p env in
  resize (hooks r) (refs r) e = [Invoke fn].
Proof.
  intros Hu0 Hcell Hfn Hu Hanchor Hwidth st r.
  assert (st.2 !! u = Some fn) as Hstored.
  { subst st. unfold after. cbn [fold_left]. apply step_preserves.
    cbn [step snd fst]. by apply storeUpdate_unset. }
  assert (refs r !! u = Some fn) as Hkept by by apply storeUpdate_preserves.
  unfold resize, updatePopoverWidth. subst r st. rewrite observer_commit.
  cbn [callback observed cbUseAnchorWidth cbUpdate].
  rewrite Hanchor, bool_decide_eq_true_2 by (by apply list_elem_of_singleton).
  by rewrite Hwidth, Hu, Hkept.
Qed.

Lemma resize_invokes_first_stored_function_witness :
  resize
    (hooks (Popover
              (after ∅ [(sampleProps (Some anchorA) true (Some 5), sampleEnv (Some 7) 100);
                        (sampleProps (Some anchorA) true (Some 5), sampleEnv (Some 8) 100)]).1
              (after ∅ [(sampleProps (Some anchorA) true (Some 5), sampleEnv (Some 7) 100);
                        (sampleProps (Some anchorA) true (Some 5), sampleEnv (Some 8) 100)]).2
              (sampleProps (Some anchorB) true (Some 5)) (sampleEnv (Some 9) 100)))
    (refs (Popover
              (after ∅ [(sampleProps (Some anchorA) true (Some 5), sampleEnv (Some 7) 100);
                        (sampleProps (Some anchorA) true (Some 5), sampleEnv (Some 8) 100)]).1
              (after ∅ [(sampleProps (Some anchorA) true (Some 5), sampleEnv (Some 7) 100);
                        (sampleProps (Some anchorA) true (Some 5), sampleEnv (Some 8) 100)]).2
              (sampleProps (Some anchorB) true (Some 5)) (sampleEnv (Some 9) 100)))
    anchorB
  = [Invoke 7].
Proof.
  apply (resize_invokes_first_stored_function ∅
           (sampleProps (Some anchorA) true (Some 5)) (sampleEnv (Some 7) 100)
           [(sampleProps (Some anchorA) true (Some 5), sampleEnv (Some 8) 100)]
           (sampleProps (Some anchorB) true (Some 5)) (sampleEnv (Some 9) 100) 5 7 anchorB);
    reflexivity.
Defined.

End PopoverMore.

(** ** Storybook theme switcher *)
Module ThemeSwitcherFacts.
Import Stdlib.Strings.Ascii.
Import ThemeSwitcher.

(** *** Prefixes and runs without ampersand *)

Lemma append_nil_l (s : string) : "" +:+ s = s.
Proof. done. Qed.

Lemma append_cons c (s1 s2 : string) : String c s1 +:+ s2 = String c (s1 +:+ s2).
Proof. done. Qed.

Lemma append_assoc (s1 s2 s3 : string) : (s1 +:+ s2) +:+ s3 = s1 +:+ s2 +:+ s3.
Proof.
  induction s1 as [|c s1 IH]; [done|]. rewrite !append_cons. by f_equal.
Qed.

Lemma stripPrefix_app p r : stripPrefix p (p +:+ r) = Some r.
Proof.
  induction p as [|c p IH]; [by destruct r|].
  rewrite append_cons. simpl. by rewrite Ascii.eqb_refl.
Qed.

Lemma stripPrefix_Some p s r : stripPrefix p s = Some r → s = p +:+ r.
Proof.
  revert s. induction p as [|c p IH]; intros s; simpl.
  - destruct s; by intros [= <-].
  - destruct s as [|d s]; [done|].
    destruct (Ascii.eqb_spec c d) as [->|]; [|done].
    intros Hs. by rewrite (IH s Hs).
Qed.

Lemma stripPrefix_app_l p a x r :
  stripPrefix p a = Some r → stripPrefix p (a +:+ x) = Some (r +:+ x).
Proof.
  intros ->%stripPrefix_Some. rewrite append_assoc. apply stripPrefix_app.
Qed.

(** A match that starts inside [a] and ends in what follows needs the
    pattern to carry, at that very place, the first character of what
    follows. *)
Lemma stripPrefix_straddle p a x :
  stripPrefix p a = None → stripPrefix p (a +:+ String "&" x) ≠ None →
  ∃ p2, p = a +:+ String "&" p2.
Proof.
  revert a. induction p as [|c p IH]; intros a.
  - by destruct a.
  - destruct a as [|d a].
    + rewrite append_nil_l. simpl. intros _.
      destruct (Ascii.eqb_spec c "&") as [->|]; [|done]. eauto.
    + rewrite append_cons. simpl.
      destruct (Ascii.eqb_spec c d) as [->|]; [|done].
      intros Ha Hax. destruct (IH a Ha Hax) as [p2 ->]. eauto.
Qed.

Lemma theme_has_no_ampersand a p2 : "theme="%string ≠ a +:+ String "&" p2.
Proof.
  intros H.
  do 6 (destruct a as [|? a]; [rewrite append_nil_l in H; discriminate|];
        rewrite append_cons in H; injection H as _ H).
  destruct a; [rewrite append_nil_l in H | rewrite append_cons in H]; discriminate.
Qed.

Lemma stripPrefix_no_straddle c a x :
  stripPrefix "&theme=" (String c a) = None →
  stripPrefix "&theme=" (String c a +:+ String "&" x) = None.
Proof.
  intros Ha. destruct (stripPrefix _ (_ +:+ _)) eqn:Hax; [|done].
  destruct (stripPrefix_straddle "&theme=" (String c a) x Ha) as [p2 Hp];
    [by rewrite Hax|].
  rewrite append_cons in Hp. injection Hp as _ Hp.
  by apply theme_has_no_ampersand in Hp.
Qed.

Lemma notAmpersands_spec s :
  ∃ rest, s = notAmpersands s +:+ rest ∧ ampersandFree (notAmpersands s)
          ∧ (rest = ""%string ∨ ∃ r, rest = String "&" r).
Proof.
  induction s as [|c s (rest & Hs & Hfree & Hrest)]; simpl.
  - exists ""%string. auto.
  - destruct (Ascii.eqb_spec c "&") as [->|Hc].
    + exists (String "&" s). rewrite append_nil_l. simpl. eauto.
    + exists rest. rewrite append_cons, <- Hs. simpl. auto.
Qed.

Lemma notAmpersands_app t rest :
  ampersandFree t → rest = ""%string ∨ (∃ r, rest = String "&" r) →
  notAmpersands (t +:+ rest) = t.
Proof.
  intros Hfree Hrest. induction t as [|c t IH].
  - rewrite append_nil_l. by destruct Hrest as [->|[r ->]].
  - destruct Hfree as [Hc Hfree]. rewrite append_cons. simpl.
    destruct (Ascii.eqb_spec c "&"); [done|]. by rewrite IH.
Qed.

(** *** The regular expression *)

Lemma themeRegExpExec_strip s r :
  stripPrefix "&theme=" s = Some r → themeRegExpExec s = Some (notAmpersands r).
Proof. intros Hs. destruct s; [done|]. cbn [themeRegExpExec]. by rewrite Hs. Qed.

Lemma themeRegExpExec_cons c s :
  stripPrefix "&theme=" (String c s) = None →
  themeRegExpExec (String c s) = themeRegExpExec s.
Proof. intros Hs. cbn [themeRegExpExec]. by rewrite Hs. Qed.

Lemma themeRegExpExec_None_cons c s :
  themeRegExpExec (String c s) = None →
  stripPrefix "&theme=" (String c s) = None ∧ themeRegExpExec s = None.
Proof.
  cbn [themeRegExpExec]. by destruct (stripPrefix "&theme=" (String c s)).
Qed.

Lemma themeRegExpExec_sound s t :
  themeRegExpExec s = Some t →
  ∃ pre rest, s = pre +:+ "&theme=" +:+ t +:+ rest ∧ themeRegExpExec pre = None
              ∧ ampersandFree t ∧ (rest = ""%string ∨ ∃ r, rest = String "&" r).
Proof.
  induction s as [|c s IH]; [done|].
  destruct (stripPrefix "&theme=" (String c s)) as [r|] eqn:Hstrip.
  - rewrite (themeRegExpExec_strip _ r Hstrip). intros [= <-].
    destruct (notAmpersands_spec r) as (rest & Hr & Hfree & Hrest).
    exists ""%string, rest. apply stripPrefix_Some in Hstrip.
    rewrite append_nil_l, <- Hr. done.
  - rewrite themeRegExpExec_cons by done.
    intros (pre & rest & -> & Hpre & Hfree & Hrest)%IH.
    exists (String c pre), rest. repeat split; [|done..].
    destruct (stripPrefix "&theme=" (String c pre)) as [r|] eqn:Hpre'.
    + rewrite <- append_cons in Hstrip.
      by rewrite (stripPrefix_app_l _ (String c pre) _ r Hpre') in Hstrip.
    + by rewrite themeRegExpExec_cons.
Qed.

Lemma themeRegExpExec_complete pre t rest :
  themeRegExpExec pre = None → ampersandFree t →
  rest = ""%string ∨ (∃ r, rest = String "&" r) →
  themeRegExpExec (pre +:+ "&theme=" +:+ t +:+ rest) = Some t.
Proof.
  intros Hpre Hfree Hrest. induction pre as [|c pre IH].
  - rewrite append_nil_l.
    rewrite (themeRegExpExec_strip _ (t +:+ rest)) by apply stripPrefix_app.
    by rewrite notAmpersands_app.
  - apply themeRegExpExec_None_cons in Hpre as [Hstrip Hpre].
    rewrite append_cons, themeRegExpExec_cons; [by apply IH|].
    rewrite <- append_cons.
    exact (stripPrefix_no_straddle c pre ("theme=" +:+ t +:+ rest) Hstrip).
Qed.

Lemma themeRegExpExec_occurs pre rest :
  is_Some (themeRegExpExec (pre +:+ "&theme=" +:+ rest)).
Proof.
  induction pre as [|c pre IH].
  - rewrite append_nil_l, (themeRegExpExec_strip _ rest) by apply stripPrefix_app.
    eauto.
  - rewrite append_cons.
    destruct (stripPrefix "&theme=" (String c (pre +:+ "&theme=" +:+ rest))) eqn:Hstrip.
    + rewrite (themeRegExpExec_strip _ _ Hstrip). eauto.
    + by rewrite themeRegExpExec_cons.
Qed.

Lemma themeRegExpExec_None s :
  themeRegExpExec s = None ↔ ∀ a b, s ≠ a +:+ "&theme=" +:+ b.
Proof.
  split.
  - intros Hs a b ->. destruct (themeRegExpExec_occurs a b) as [t Ht]. congruence.
  - intros Hs. destruct (themeRegExpExec s) as [t|] eqn:Ht; [|done].
    apply themeRegExpExec_sound in Ht as (pre & rest & -> & _). by destruct (Hs pre (t +:+ rest)).
Qed.

Lemma ampersandFree_no_ampersand a b : ¬ ampersandFree (a +:+ String "&" b).
Proof.
  induction a as [|c a IH].
  - rewrite append_nil_l. by intros [? _].
  - rewrite append_cons. by intros [_ ?].
Qed.

Lemma themes_lookup_other i theme :
  theme ∉ ["default"; "click"; "mobile"; "corp"; "site"]%string →
  themes i !! theme = None.
Proof.
  rewrite !not_elem_of_cons. intros (? & ? & ? & ? & ? & _).
  unfold themes. by rewrite !lookup_insert_ne, lookup_empty.
Qed.

(** X15.  The regular expression captures [t] from [search] exactly when
    [search] is some text holding no [&theme=], then [&theme=], then [t],
    then nothing or an ampersand with whatever follows, [t] holding no
    ampersand: the value of the leftmost [&theme=] parameter, up to the next
    parameter. *)
Theorem theme_query_capture search t :
  themeRegExpExec search = Some t
  ↔ ∃ pre rest, search = pre +:+ "&theme=" +:+ t +:+ rest
                ∧ (∀ a b, pre ≠ a +:+ "&theme=" +:+ b)
                ∧ ampersandFree t
                ∧ (rest = ""%string ∨ ∃ r, rest = String "&" r).
Proof.
  split.
  - intros (pre & rest & -> & Hpre & Hfree & Hrest)%themeRegExpExec_sound.
    exists pre, rest. by rewrite <- themeRegExpExec_None.
  - intros (pre & rest & -> & Hpre & Hfree & Hrest).
    apply themeRegExpExec_complete; [by apply themeRegExpExec_None | done..].
Qed.

(** X16.  Nothing is written exactly when [&theme=] occurs nowhere in the
    query string; in particular a query string without any ampersand, such
    as one whose first and only parameter is the theme, sets no theme. *)
Theorem theme_query_no_match i search :
  (setThemeStylesInIframeHtmlPage i search = NoMatch
   ↔ ∀ a b, search ≠ a +:+ "&theme=" +:+ b)
  ∧ (ampersandFree search → setThemeStylesInIframeHtmlPage i search = NoMatch).
Proof.
  assert (setThemeStylesInIframeHtmlPage i search = NoMatch
          ↔ ∀ a b, search ≠ a +:+ "&theme=" +:+ b) as Hiff.
  { rewrite <- themeRegExpExec_None. unfold setThemeStylesInIframeHtmlPage, setStyles.
    destruct (themeRegExpExec search) as [theme|]; [|done].
    by destruct (getThemeStyles i theme). }
  split; [done|].
  intros Hfree. apply Hiff. intros a b ->.
  by apply (ampersandFree_no_ampersand a ("theme=" +:+ b)).
Qed.

Lemma theme_query_no_match_witness :
  setThemeStylesInIframeHtmlPage sheets "?theme=click" = NoMatch.
Proof.
  apply (theme_query_no_match sheets "?theme=click"). vm_compute. repeat split; discriminate.
Defined.

(** X17.  When the query string names one of the five themes, the style tag
    receives that theme's sheet, a line feed and, for [mobile] only, the
    bluetint colours. *)
Theorem theme_from_query_applied i pre theme rest css :
  (∀ a b, pre ≠ a +:+ "&theme=" +:+ b) →
  ampersandFree theme →
  rest = ""%string ∨ (∃ r, rest = String "&" r) →
  themes i !! theme = Some css →
  setThemeStylesInIframeHtmlPage i (pre +:+ "&theme=" +:+ theme +:+ rest)
  = Styled (SetInnerHTML "theme" (MODE_COLORS_TAG_ID i)
              (css +:+ lineFeed
               +:+ (if bool_decide (theme = "mobile"%string)
                    then bluetintColors i else ""%string))).
Proof.
  intros Hpre Hfree Hrest Hcss. unfold setThemeStylesInIframeHtmlPage.
  rewrite themeRegExpExec_complete; [|by apply themeRegExpExec_None | done..].
  unfold setStyles, getThemeStyles. by rewrite Hcss.
Qed.

Lemma theme_from_query_applied_witness :
  setThemeStylesInIframeHtmlPage sheets "?path=/story&theme=mobile&mode=dark"
  = Styled (SetInnerHTML "theme" "mode-colors" (".mobile{}" +:+ lineFeed +:+ ":root{--blue:0}")).
Proof.
  apply (theme_from_query_applied sheets "?path=/story" "mobile" "&mode=dark" ".mobile{}").
  - apply themeRegExpExec_None. reflexivity.
  - vm_compute. repeat split; discriminate.
  - right. eauto.
  - reflexivity.
Defined.

(** X18.  A theme name that is neither one of the five themes nor a property
    inherited from [Object.prototype] is no error: it gets the styles of
    [default], a lone line feed. *)
Theorem unknown_theme_is_default i theme :
  theme ∉ ["default"; "click"; "mobile"; "corp"; "site"]%string →
  theme ∉ objectPrototypeKeys →
  getThemeStyles i theme = Some lineFeed
  ∧ setStyles i theme = setStyles i "default".
Proof.
  intros Hown Hproto.
  assert (getThemeStyles i theme = Some lineFeed) as Hstyles.
  { unfold getThemeStyles. rewrite themes_lookup_other by done.
    rewrite bool_decide_eq_false_2 by done.
    rewrite bool_decide_eq_false_2; [done|].
    intros ->. apply Hown. rewrite !elem_of_cons. auto. }
  split; [done|]. unfold setStyles. by rewrite Hstyles.
Qed.

Lemma unknown_theme_is_default_witness :
  getThemeStyles sheets "" = Some lineFeed
  ∧ setStyles sheets "dark" = setStyles sheets "default".
Proof.
  split.
  - apply (unknown_theme_is_default sheets "");
      unfold objectPrototypeKeys; rewrite !not_elem_of_cons; repeat split;
      (discriminate || apply not_elem_of_nil).
  - apply (unknown_theme_is_default sheets "dark");
      unfold objectPrototypeKeys; rewrite !not_elem_of_cons; repeat split;
      (discriminate || apply not_elem_of_nil).
Defined.

End ThemeSwitcherFacts.
